(** * scripts/pull-names.ts: the CSV -> per-language CSV/JSON/SVG conversion

    A shallow embedding of the conversion script and the properties of its
    converter, parser, grouper and emitters.

    Strings are ECMAScript strings: finite sequences of UTF-16 code units,
    modelled as [list N].  Numbers that the script computes are integers;
    they are modelled in [Z], with [None] standing for NaN where a builtin
    can produce it. *)

From Stdlib Require Import List ZArith NArith Bool Lia Ascii String Permutation.
Import ListNotations.

(* ================================================================== *)
(** * Part I: definitions                                              *)
(* ================================================================== *)

(** ** ECMAScript strings and the builtins the script calls *)

Module JS.

(** A string value is a sequence of 16-bit code units. *)
Definition jsstring := list N.

(** ASCII literals of the source text. *)
Definition lit (s : string) : jsstring :=
  List.map N_of_ascii (list_ascii_of_string s).

Definition dquote : N := 34%N.      (* the double-quote character *)
Definition comma : N := 44%N.
Definition linefeed : N := 10%N.
Definition lparen : N := 40%N.
Definition rparen : N := 41%N.
Definition minus : N := 45%N.
Definition dollar : N := 36%N.
Definition zero_char : N := 48%N.

Fixpoint str_eqb (a b : jsstring) : bool :=
  match a, b with
  | [], [] => true
  | x :: a', y :: b' => N.eqb x y && str_eqb a' b'
  | _, _ => false
  end.

(** [s.includes(c)] for a one-character needle. *)
Definition includes (c : N) (s : jsstring) : bool := existsb (N.eqb c) s.

(** WhiteSpace and LineTerminator code points of ECMA-262: what
    [String.prototype.trim] strips and what [\s] matches. *)
Definition isWhiteSpace (c : N) : bool :=
  ((9 <=? c) && (c <=? 13) || (c =? 32) || (c =? 160) || (c =? 5760)
   || (8192 <=? c) && (c <=? 8202) || (c =? 8232) || (c =? 8233)
   || (c =? 8239) || (c =? 8287) || (c =? 12288) || (c =? 65279))%N.

(** [\d] without the unicode flag: the ten ASCII digits. *)
Definition isDigit (c : N) : bool := ((48 <=? c) && (c <=? 57))%N.

Fixpoint takeWhile (p : N -> bool) (s : jsstring) : jsstring :=
  match s with
  | [] => []
  | c :: t => if p c then c :: takeWhile p t else []
  end.

Fixpoint dropWhile (p : N -> bool) (s : jsstring) : jsstring :=
  match s with
  | [] => []
  | c :: t => if p c then dropWhile p t else s
  end.

Definition trimStart (s : jsstring) : jsstring := dropWhile isWhiteSpace s.
Definition trimEnd (s : jsstring) : jsstring :=
  rev (dropWhile isWhiteSpace (rev s)).
(** [s.trim()] *)
Definition trim (s : jsstring) : jsstring := trimEnd (trimStart s).

(** [s.split(sep)] for a one-character separator: always at least one
    piece, the empty string splits into one empty piece. *)
Fixpoint split (sep : N) (s : jsstring) : list jsstring :=
  match s with
  | [] => [[]]
  | c :: t =>
      if N.eqb c sep then [] :: split sep t
      else match split sep t with
           | [] => [[c]]
           | h :: r => (c :: h) :: r
           end
  end.

(** [pieces.join(sep)] *)
Fixpoint join (sep : jsstring) (pieces : list jsstring) : jsstring :=
  match pieces with
  | [] => []
  | [p] => p
  | p :: rest => p ++ sep ++ join sep rest
  end.

(** [s.replace(/c/g, rep)] for a one-character pattern and a replacement
    text without [$]. *)
Definition replaceChar (c : N) (rep : jsstring) (s : jsstring) : jsstring :=
  flat_map (fun x => if N.eqb x c then rep else [x]) s.

(** [s.replace(/\s+/g, rep)]: every maximal run of white space becomes one
    copy of [rep] ([rep] without [$]). *)
Fixpoint replaceSpaceRuns (rep : jsstring) (s : jsstring) : jsstring :=
  match s with
  | [] => []
  | c :: t =>
      if isWhiteSpace c then
        match t with
        | c' :: _ => if isWhiteSpace c' then replaceSpaceRuns rep t
                     else rep ++ replaceSpaceRuns rep t
        | [] => rep
        end
      else c :: replaceSpaceRuns rep t
  end.

(** Digits of a natural number in a radix of at most 36, most significant
    first, as [Number.prototype.toString(radix)] prints an integer. *)
Definition digitChar (d : N) : N :=
  if (d <? 10)%N then (48 + d)%N else (87 + d)%N.

Fixpoint radixDigits (fuel : nat) (radix n : N) : jsstring :=
  match fuel with
  | O => []
  | S f =>
      if (n <? radix)%N then [digitChar n]
      else radixDigits f radix (n / radix) ++ [digitChar (n mod radix)]
  end.

Definition natToString (radix n : N) : jsstring :=
  radixDigits (S (N.to_nat (N.log2 n))) radix n.

(** A Number restricted to the values the script can reach: an integer, or
    NaN ([None]).  [parseInt] yields a double; every integer it yields here
    goes through [clamp] before it is printed, and rounding to the nearest
    double (or to an infinity) never moves a value across 0 or 255, so the
    exact integer gives the same clamped result. *)
Definition number := option Z.

(** [n.toString(radix)] on an integer; NaN prints as "NaN". *)
Definition toString (radix : N) (n : number) : jsstring :=
  match n with
  | None => lit "NaN"
  | Some z =>
      if (z <? 0)%Z then minus :: natToString radix (Z.to_N (- z))
      else natToString radix (Z.to_N z)
  end.

(** [String(n)] for an integer below 10^21. *)
Definition String_of (n : Z) : jsstring := toString 10 (Some n).

(** [s.padStart(2, '0')] *)
Definition padStart2 (s : jsstring) : jsstring :=
  repeat zero_char (2 - List.length s) ++ s.

(** Value of a digit sequence in base ten, most significant first. *)
Definition decimalValue (ds : jsstring) : Z :=
  fold_left (fun acc d => (10 * acc + (Z.of_N d - 48))%Z) ds 0%Z.

(** [parseInt(s, 10)]: leading white space is skipped, one sign is
    accepted, then the longest run of decimal digits is read; no digit at
    all gives NaN. *)
Definition parseInt10 (s : jsstring) : number :=
  let s := trimStart s in
  let '(neg, s) :=
    match s with
    | c :: t => if N.eqb c minus then (true, t)
                else if N.eqb c 43%N then (false, t) else (false, s)
    | [] => (false, s)
    end in
  match takeWhile isDigit s with
  | [] => None
  | ds => Some (if neg then (- decimalValue ds)%Z else decimalValue ds)
  end.

(** [Math.min] and [Math.max] with a constant first argument. *)
Definition Math_min (a : Z) (n : number) : number := option_map (Z.min a) n.
Definition Math_max (a : Z) (n : number) : number := option_map (Z.max a) n.

End JS.
Import JS.

(** ** The colour converter, [rgbToHex] (source lines 56-70) *)

Module Rgb.

Definition bind {A B} (a : option A) (k : A -> option B) : option B :=
  match a with Some x => k x | None => None end.

Notation "x <- a ;; b" := (bind a (fun x => b))
  (at level 61, a at next level, right associativity).
Notation "' p <- a ;; b" := (bind a (fun x => match x with p => b end))
  (at level 61, p pattern, a at next level, right associativity).

(** One literal character of the pattern. *)
Definition expect (c : N) (s : jsstring) : option jsstring :=
  match s with
  | x :: t => if N.eqb x c then Some t else None
  | [] => None
  end.

(** [\s*] *)
Definition skipSpaces (s : jsstring) : jsstring := dropWhile isWhiteSpace s.

(** [\d+]: the digits read and the rest. *)
Definition digits1 (s : jsstring) : option (jsstring * jsstring) :=
  match takeWhile isDigit s with
  | [] => None
  | ds => Some (ds, dropWhile isDigit s)
  end.

(** The capture group [(-?\d+)]. *)
Definition intGroup (s : jsstring) : option (jsstring * jsstring) :=
  match s with
  | c :: t =>
      if N.eqb c minus then
        '(ds, r) <- digits1 t ;; Some (minus :: ds, r)
      else digits1 s
  | [] => None
  end.

(** The pattern
    [/rgb\s*\(\s*(-?\d+)\s*,\s*(-?\d+)\s*,\s*(-?\d+)\s*\)/]
    tried at the head of [s]; the three captures on success.  Each starred
    or plussed class is followed by a character outside the class, so the
    greedy choice is the only one that can succeed and no backtracking is
    modelled ([matchAt_iff] below relates this scanner to the pattern's
    language). *)
Definition matchAt (s : jsstring) : option (jsstring * jsstring * jsstring) :=
  s <- expect 114 s ;;
  s <- expect 103 s ;;
  s <- expect 98 s ;;
  s <- expect lparen (skipSpaces s) ;;
  '(c1, s) <- intGroup (skipSpaces s) ;;
  s <- expect comma (skipSpaces s) ;;
  '(c2, s) <- intGroup (skipSpaces s) ;;
  s <- expect comma (skipSpaces s) ;;
  '(c3, s) <- intGroup (skipSpaces s) ;;
  _ <- expect rparen (skipSpaces s) ;;
  Some (c1, c2, c3).

(** [rgb.match(pattern)] for the pattern without the [g] flag: the match
    at the leftmost position where there is one. *)
Fixpoint rgbMatch (s : jsstring) : option (jsstring * jsstring * jsstring) :=
  match matchAt s with
  | Some m => Some m
  | None => match s with
            | [] => None
            | _ :: t => rgbMatch t
            end
  end.

(** [const clamp = (n: number) => Math.max(0, Math.min(255, n))] *)
Definition clamp (n : number) : number := Math_max 0 (Math_min 255 n).

(** [c => c.toString(16).padStart(2, '0')] *)
Definition hexByte (c : number) : jsstring := padStart2 (toString 16 c).

(** The result of a call together with what it passed to [console.warn]. *)
Definition rgbToHexLog (rgb : jsstring) : list jsstring * jsstring :=
  match rgbMatch rgb with
  | None => ([lit "Could not parse RGB value: " ++ rgb], lit "#000000")
  | Some (m1, m2, m3) =>
      let r := clamp (parseInt10 m1) in
      let g := clamp (parseInt10 m2) in
      let b := clamp (parseInt10 m3) in
      ([], lit "#" ++ join [] (List.map hexByte [r; g; b]))
  end.

Definition rgbToHex (rgb : jsstring) : jsstring := snd (rgbToHexLog rgb).

End Rgb.
Import Rgb.

(** ** The CSV reader, [parseCSV] (source lines 75-104) *)

Module Csv.

(** The three variables of the scanning loop of a data row. *)
Record scan : Type := Scan {
  values : list jsstring;
  current : jsstring;
  inQuotes : bool
}.

(** One iteration of [for (const char of line)].  The loop walks code
    points; a code point outside the basic plane is two code units, neither
    of which is a quote or a comma, and both are appended to [current], so
    walking code units gives the same [values]. *)
Definition scanChar (st : scan) (char : N) : scan :=
  if N.eqb char dquote then
    Scan (values st) (current st) (negb (inQuotes st))
  else if N.eqb char comma && negb (inQuotes st) then
    Scan (values st ++ [trim (current st)]) [] (inQuotes st)
  else
    Scan (values st) (current st ++ [char]) (inQuotes st).

(** The body of the row callback up to the last [values.push]. *)
Definition rowValues (line : jsstring) : list jsstring :=
  let st := fold_left scanChar line (Scan [] [] false) in
  values st ++ [trim (current st)].

(** [lines[0].split(',').map(h => h.trim())] *)
Definition headerNames (line : jsstring) : list jsstring :=
  List.map trim (split comma line).

(** A plain object used as a string-to-string record: its own properties
    in creation order. *)
Definition object := list (jsstring * jsstring).

Fixpoint get (key : jsstring) (o : object) : option jsstring :=
  match o with
  | [] => None
  | (k, v) :: rest => if str_eqb k key then Some v else get key rest
  end.

Fixpoint put (key value : jsstring) (o : object) : object :=
  match o with
  | [] => [(key, value)]
  | (k, v) :: rest =>
      if str_eqb k key then (k, value) :: rest
      else (k, v) :: put key value rest
  end.

(** [obj[key] = value].  The key [__proto__] reaches the accessor that
    [Object.prototype] defines, which ignores a string; every other key
    creates or overwrites an own property. *)
Definition assign (key value : jsstring) (o : object) : object :=
  if str_eqb key (lit "__proto__") then o else put key value o.

(** [values[i] || ''] *)
Definition valueOrEmpty (vs : list jsstring) (i : nat) : jsstring :=
  match nth_error vs i with
  | Some v => v
  | None => []
  end.

(** [headers.forEach((header, i) => { obj[header] = values[i] || '' })],
    from index [i] on. *)
Fixpoint fillObject (headers : list jsstring) (i : nat)
    (vs : list jsstring) (obj : object) : object :=
  match headers with
  | [] => obj
  | header :: rest =>
      fillObject rest (S i) vs (assign header (valueOrEmpty vs i) obj)
  end.

Definition parseRow (headers : list jsstring) (line : jsstring) : object :=
  fillObject headers 0 (rowValues line) [].

Definition parseCSV (csv : jsstring) : list object :=
  let lines := split linefeed (trim csv) in
  let headers := headerNames (hd [] lines) in
  List.map (parseRow headers) (tl lines).

End Csv.
Import Csv.

(** ** Records, grouping and the three emitters *)

Module Emit.

(** [interface ColorInfo] (source lines 40-50). *)
Record ColorInfo : Type := MkColorInfo {
  lang : jsstring;
  lang_abv : jsstring;
  simplifiedName : jsstring;
  commonName : jsstring;
  avgColorRGBCode : jsstring;
  totalColorFraction : jsstring;
  avgL : jsstring;
  avgA : jsstring;
  avgB : jsstring
}.

(** [obj as unknown as ColorInfo].  The cast is unchecked; an object
    that lacks a declared field is not a [ColorInfo], and the typed
    functions below are not defined on it. *)
Definition asColorInfo (o : object) : option ColorInfo :=
  f1 <- get (lit "lang") o ;;
  f2 <- get (lit "lang_abv") o ;;
  f3 <- get (lit "simplifiedName") o ;;
  f4 <- get (lit "commonName") o ;;
  f5 <- get (lit "avgColorRGBCode") o ;;
  f6 <- get (lit "totalColorFraction") o ;;
  f7 <- get (lit "avgL") o ;;
  f8 <- get (lit "avgA") o ;;
  f9 <- get (lit "avgB") o ;;
  Some (MkColorInfo f1 f2 f3 f4 f5 f6 f7 f8 f9).

(** [a || b] on strings: the empty string is the only falsy one. *)
Definition orElse (a b : jsstring) : jsstring :=
  match a with
  | [] => b
  | _ :: _ => a
  end.

(** A [Map] with string keys: its entries in insertion order. *)
Definition jsmap (V : Type) := list (jsstring * V).

Fixpoint map_has {V} (key : jsstring) (m : jsmap V) : bool :=
  match m with
  | [] => false
  | (k, _) :: rest => str_eqb k key || map_has key rest
  end.

Fixpoint map_get {V} (key : jsstring) (m : jsmap V) : option V :=
  match m with
  | [] => None
  | (k, v) :: rest => if str_eqb k key then Some v else map_get key rest
  end.

(** [m.set(key, value)]: a new key goes last, an old one keeps its place. *)
Fixpoint map_set {V} (key : jsstring) (value : V) (m : jsmap V) : jsmap V :=
  match m with
  | [] => [(key, value)]
  | (k, v) :: rest =>
      if str_eqb k key then (k, value) :: rest
      else (k, v) :: map_set key value rest
  end.

(** [m.get(key)!.push(x)]: the array stored under [key] is extended in
    place, so the map sees the longer array. *)
Fixpoint map_push {V} (key : jsstring) (x : V) (m : jsmap (list V))
    : jsmap (list V) :=
  match m with
  | [] => []
  | (k, arr) :: rest =>
      if str_eqb k key then (k, arr ++ [x]) :: rest
      else (k, arr) :: map_push key x rest
  end.

(** [color.lang_abv || color.lang] *)
Definition languageKey (color : ColorInfo) : jsstring :=
  orElse (lang_abv color) (lang color).

(** The body of the loop of [groupByLanguage]. *)
Definition groupStep (grouped : jsmap (list ColorInfo)) (color : ColorInfo)
    : jsmap (list ColorInfo) :=
  let lang := languageKey color in
  let grouped :=
    if negb (map_has lang grouped) then map_set lang [] grouped
    else grouped in
  map_push lang color grouped.

(** [groupByLanguage] (source lines 109-121). *)
Definition groupByLanguage (colors : list ColorInfo)
    : jsmap (list ColorInfo) :=
  fold_left groupStep colors [].

(** [color.commonName || color.simplifiedName] *)
Definition entryName (color : ColorInfo) : jsstring :=
  orElse (commonName color) (simplifiedName color).

(** The quoting of a name in [generateCSV]. *)
Definition escapeName (name : jsstring) : jsstring :=
  if includes comma name || includes dquote name
  then [dquote] ++ replaceChar dquote [dquote; dquote] name ++ [dquote]
  else name.

(** The line that one record adds to [lines]. *)
Definition csvLine (color : ColorInfo) : jsstring :=
  escapeName (entryName color) ++ [comma] ++ rgbToHex (avgColorRGBCode color).

(** The array [lines] when the loop of [generateCSV] ends. *)
Definition csvLines (colors : list ColorInfo) : list jsstring :=
  fold_left (fun lines color => lines ++ [csvLine color]) colors
            [lit "name,hex"].

(** [generateCSV] (source lines 126-140). *)
Definition generateCSV (colors : list ColorInfo) : jsstring :=
  join [linefeed] (csvLines colors).

(** A [{name, hex}] object. *)
Record ColorEntry : Type := MkEntry { name : jsstring; hex : jsstring }.

(** [colorArray] of [generateJSON]. *)
Definition colorArray (colors : list ColorInfo) : list ColorEntry :=
  List.map (fun color =>
         MkEntry (entryName color) (rgbToHex (avgColorRGBCode color)))
      colors.

End Emit.
Import Emit.

(** ** [JSON.stringify] on an array of [{name, hex}] objects *)

Module Json.

Definition isHighSurrogate (c : N) : bool := ((55296 <=? c) && (c <=? 56319))%N.
Definition isLowSurrogate (c : N) : bool := ((56320 <=? c) && (c <=? 57343))%N.

Definition backslash : N := 92%N.

(** UnicodeEscape: a backslash, [u] and four lowercase hexadecimal digits. *)
Definition unicodeEscape (c : N) : jsstring :=
  [backslash; 117%N; digitChar (c / 4096); digitChar ((c / 256) mod 16);
   digitChar ((c / 16) mod 16); digitChar (c mod 16)].

(** The escape of one code unit that is not a surrogate. *)
Definition escapeUnit (c : N) : jsstring :=
  if (c =? 8)%N then [backslash; 98%N]
  else if (c =? 9)%N then [backslash; 116%N]
  else if (c =? 10)%N then [backslash; 110%N]
  else if (c =? 12)%N then [backslash; 102%N]
  else if (c =? 13)%N then [backslash; 114%N]
  else if (c =? 34)%N then [backslash; dquote]
  else if (c =? 92)%N then [backslash; backslash]
  else if (c <? 32)%N then unicodeEscape c
  else [c].

(** QuoteJSONString without the surrounding quotes: a surrogate pair is
    kept, a lone surrogate is escaped. *)
Fixpoint quoteBody (s : jsstring) : jsstring :=
  match s with
  | [] => []
  | c :: t =>
      if isHighSurrogate c then
        match t with
        | d :: t' =>
            if isLowSurrogate d then c :: d :: quoteBody t'
            else unicodeEscape c ++ quoteBody t
        | [] => unicodeEscape c
        end
      else if isLowSurrogate c then unicodeEscape c ++ quoteBody t
      else escapeUnit c ++ quoteBody t
  end.

Definition quoteJSON (s : jsstring) : jsstring :=
  [dquote] ++ quoteBody s ++ [dquote].

(** SerializeJSONObject for [{name, hex}] inside the array, gap of two
    spaces. *)
Definition stringifyEntry (e : ColorEntry) : jsstring :=
  lit "{" ++ [linefeed]
  ++ lit "    " ++ quoteJSON (lit "name") ++ lit ": " ++ quoteJSON (name e)
  ++ lit "," ++ [linefeed]
  ++ lit "    " ++ quoteJSON (lit "hex") ++ lit ": " ++ quoteJSON (hex e)
  ++ [linefeed] ++ lit "  }".

(** [JSON.stringify(colorArray, null, 2)] *)
Definition stringify (entries : list ColorEntry) : jsstring :=
  match entries with
  | [] => lit "[]"
  | _ :: _ =>
      lit "[" ++ [linefeed] ++ lit "  "
      ++ join (lit "," ++ [linefeed] ++ lit "  ") (List.map stringifyEntry entries)
      ++ [linefeed] ++ lit "]"
  end.

End Json.

(** [generateJSON] (source lines 146-153). *)
Definition generateJSON (colors : list ColorInfo) : jsstring :=
  Json.stringify (colorArray colors).

(** ** [String.prototype.replace] with a global literal pattern *)

Module Replace.

(** The rest of [s] after the pattern, when [s] starts with it. *)
Fixpoint afterPrefix (pat s : jsstring) : option jsstring :=
  match pat, s with
  | [], _ => Some s
  | p :: pat', c :: s' => if N.eqb p c then afterPrefix pat' s' else None
  | _ :: _, [] => None
  end.

(** GetSubstitution for a pattern without capture groups: [$$], [$&],
    [$`] and [$'] expand; any other [$] stays. *)
Fixpoint substitution (matched before after rep : jsstring) : jsstring :=
  match rep with
  | [] => []
  | c :: t =>
      if N.eqb c dollar then
        match t with
        | d :: t' =>
            if N.eqb d dollar then dollar :: substitution matched before after t'
            else if N.eqb d 38%N then matched ++ substitution matched before after t'
            else if N.eqb d 96%N then before ++ substitution matched before after t'
            else if N.eqb d 39%N then after ++ substitution matched before after t'
            else dollar :: substitution matched before after t
        | [] => [dollar]
        end
      else c :: substitution matched before after t
  end.

(** The scan of [s.replace(/pat/g, rep)] for a non-empty literal [pat]:
    [before] is the text already passed, [skip] counts the characters of a
    match still to step over. *)
Fixpoint replaceFrom (pat rep before : jsstring) (skip : nat) (s : jsstring)
    : jsstring :=
  match s with
  | [] => []
  | c :: t =>
      match skip with
      | S k => replaceFrom pat rep (before ++ [c]) k t
      | O =>
          match afterPrefix pat s with
          | Some after =>
              substitution pat before after rep
              ++ replaceFrom pat rep (before ++ [c]) (List.length pat - 1) t
          | None => c :: replaceFrom pat rep (before ++ [c]) 0 t
          end
      end
  end.

Definition replaceAll (pat rep s : jsstring) : jsstring :=
  replaceFrom pat rep [] 0 s.

End Replace.
Import Replace.

(** ** The SVG emitter, [generateSVG] (source lines 158-177) *)

Module Svg.

(** A literal between double quotes. *)
Definition q (s : string) : jsstring := [dquote] ++ lit s ++ [dquote].

Definition RTL_LANGUAGES : list jsstring :=
  [lit "fa"; lit "ar"; lit "he"; lit "ur"].

(** [set.has(key)] *)
Definition set_has (key : jsstring) (set : list jsstring) : bool :=
  existsb (str_eqb key) set.

(** [SVG_TEMPLATE] (source lines 25-38), line by line. *)
Definition SVG_TEMPLATE : jsstring :=
  join [linefeed]
  [lit "<svg xmlns=" ++ q "http://www.w3.org/2000/svg" ++ lit " viewBox=" ++ q "0 0 600 {height}" ++ lit ">";
   lit "  <defs>";
   lit "    <style type=" ++ q "text/css" ++ lit ">";
   lit "      @import url('https://rsms.me/inter/inter.css');";
   lit "      text {";
   lit "        font-family: Inter, -apple-system, BlinkMacSystemFont, " ++ q "Segoe UI" ++ lit ", Roboto, Helvetica, Arial, sans-serif, " ++ q "Apple Color Emoji" ++ lit ", " ++ q "Segoe UI Emoji" ++ lit ", " ++ q "Segoe UI Symbol" ++ lit ";";
   lit "        font-size: 40px;";
   lit "        font-weight: 900;";
   lit "      }";
   lit "    </style>";
   lit "  </defs>";
   lit "  <rect fill=" ++ q "#202124" ++ lit " x=" ++ q "0" ++ lit " y=" ++ q "0" ++ lit " width=" ++ q "600" ++ lit " height=" ++ q "{height}" ++ lit "/>";
   lit "  {items}";
   lit "</svg>"].

(** The three [replace] calls on a name. *)
Definition xmlEscape (s : jsstring) : jsstring :=
  replaceChar 62 (lit "&gt;")
    (replaceChar 60 (lit "&lt;") (replaceChar 38 (lit "&amp;") s)).

(** [20 + (i + 1) * 70] *)
Definition itemY (i : nat) : Z := (20 + (Z.of_nat i + 1) * 70)%Z.

(** The callback of [colors.map((color, i) => ...)]. *)
Definition svgItem (isRTL : bool) (i : nat) (color : ColorInfo) : jsstring :=
  let name := xmlEscape (entryName color) in
  let hex := rgbToHex (avgColorRGBCode color) in
  if isRTL then
    lit "<text x=" ++ q "560" ++ lit " y=" ++ [dquote] ++ String_of (itemY i)
    ++ [dquote] ++ lit " fill=" ++ [dquote] ++ hex ++ [dquote]
    ++ lit " text-anchor=" ++ q "end" ++ lit " xml:lang=" ++ q "fa"
    ++ lit " unicode-bidi=" ++ q "embed" ++ lit ">" ++ name ++ lit "</text>"
  else
    lit "<text x=" ++ q "40" ++ lit " y=" ++ [dquote] ++ String_of (itemY i)
    ++ [dquote] ++ lit " fill=" ++ [dquote] ++ hex ++ [dquote]
    ++ lit ">" ++ name ++ lit "</text>".

(** [arr.map((x, i) => f(x, i))], indices from [i] on. *)
Fixpoint mapi {A B} (f : nat -> A -> B) (i : nat) (l : list A) : list B :=
  match l with
  | [] => []
  | x :: rest => f i x :: mapi f (S i) rest
  end.

Definition svgItems (colors : list ColorInfo) (langAbv : jsstring) : jsstring :=
  let isRTL := set_has langAbv RTL_LANGUAGES in
  join ([linefeed] ++ lit "  ") (mapi (svgItem isRTL) 0 colors).

(** [colors.length * 70 + 80] *)
Definition svgHeight (colors : list ColorInfo) : Z :=
  (Z.of_nat (List.length colors) * 70 + 80)%Z.

Definition generateSVG (colors : list ColorInfo) (langAbv : jsstring)
    : jsstring :=
  let items := svgItems colors langAbv in
  let height := svgHeight colors in
  replaceAll (lit "{items}") items
    (replaceAll (lit "{height}") (String_of height) SVG_TEMPLATE).

End Svg.
Import Svg.

(** ** File names and the run of [main] *)

Module Main.

Section WithLowerCase.

(** [String.prototype.toLowerCase] follows the Unicode case tables, which
    are not part of the script; it is a parameter here. *)
Variable toLowerCase : jsstring -> jsstring.

(** [getLanguageBasename] (source lines 182-190).  [colors[0]?.lang] of an
    empty array is undefined, which [||] treats like the empty string. *)
Definition getLanguageBasename (langAbv : jsstring) (colors : list ColorInfo)
    : jsstring :=
  let fullLang :=
    orElse (match colors with c :: _ => lang c | [] => [] end) langAbv in
  let englishName :=
    replaceSpaceRuns (lit "-")
      (toLowerCase (trim (hd [] (split lparen fullLang)))) in
  langAbv ++ lit "-" ++ englishName.

Inductive directory : Type := DATA_DIR | JSON_DIR | SVG_DIR.

(** One call of [writeFileSync(join(dir, fileName), content, 'utf-8')]. *)
Record fileWrite : Type := Write_ {
  dir : directory;
  fileName : jsstring;
  content : jsstring
}.

(** The body of the loop over [byLanguage]. *)
Definition writeLanguage (entry : jsstring * list ColorInfo) : list fileWrite :=
  let '(langAbv, langColors) := entry in
  let basename := getLanguageBasename langAbv langColors in
  [ Write_ DATA_DIR (basename ++ lit ".csv") (generateCSV langColors);
    Write_ JSON_DIR (basename ++ lit ".json") (generateJSON langColors);
    Write_ SVG_DIR (basename ++ lit ".svg") (generateSVG langColors langAbv) ].

Fixpoint traverse {A B} (f : A -> option B) (l : list A) : option (list B) :=
  match l with
  | [] => Some []
  | x :: rest =>
      y <- f x ;; ys <- traverse f rest ;; Some (y :: ys)
  end.

(** The files that [main] writes, in order, from the text that the fetch
    returned; [None] when a parsed row is not a [ColorInfo]. *)
Definition mainWrites (csvData : jsstring) : option (list fileWrite) :=
  colors <- traverse asColorInfo (parseCSV csvData) ;;
  Some (flat_map writeLanguage (groupByLanguage colors)).

End WithLowerCase.

(** Lower case of the 26 capital letters of ASCII. *)
Definition asciiLower (c : N) : N :=
  if ((65 <=? c) && (c <=? 90))%N then (c + 32)%N else c.

Definition isAscii (c : N) : bool := (c <? 128)%N.

(** What is assumed of [toLowerCase]: on a string of ASCII characters it
    changes the capital letters and nothing else. *)
Definition lowerCaseOnAscii (toLowerCase : jsstring -> jsstring) : Prop :=
  forall s, forallb isAscii s = true -> toLowerCase s = List.map asciiLower s.

End Main.
Import Main.

(** ** Reference notions that the properties are stated against *)

Module Reference.

(** *** Reading a [#rrggbb] text back *)

Definition hexDigitValue (c : N) : option Z :=
  if isDigit c then Some (Z.of_N c - 48)%Z
  else if ((97 <=? c) && (c <=? 102))%N then Some (Z.of_N c - 87)%Z
  else if ((65 <=? c) && (c <=? 70))%N then Some (Z.of_N c - 55)%Z
  else None.

Definition hexPair (hi lo : N) : option Z :=
  h <- hexDigitValue hi ;; l <- hexDigitValue lo ;; Some (16 * h + l)%Z.

(** The three channels of a seven-character [#rrggbb] text. *)
Definition hexChannels (h : jsstring) : option (Z * Z * Z) :=
  match h with
  | [hash; r1; r2; g1; g2; b1; b2] =>
      if N.eqb hash 35%N then
        r <- hexPair r1 r2 ;; g <- hexPair g1 g2 ;; b <- hexPair b1 b2 ;;
        Some (r, g, b)
      else None
  | _ => None
  end.

(** The text [rgb(r, g, b)]. *)
Definition rgbText (r g b : Z) : jsstring :=
  lit "rgb(" ++ String_of r ++ lit ", " ++ String_of g ++ lit ", "
  ++ String_of b ++ lit ")".

(** *** The language of the pattern of [rgbToHex] *)

Definition spaces (w : jsstring) : Prop := forallb isWhiteSpace w = true.

Definition digitRun (ds : jsstring) : Prop :=
  ds <> [] /\ forallb isDigit ds = true.

(** [-?\d+] *)
Inductive intToken : jsstring -> Prop :=
| tok_plain : forall ds, digitRun ds -> intToken ds
| tok_minus : forall ds, digitRun ds -> intToken (minus :: ds).

(** The integer an [intToken] denotes. *)
Fixpoint digitsValue (acc : Z) (ds : jsstring) : Z :=
  match ds with
  | [] => acc
  | d :: rest => digitsValue (10 * acc + (Z.of_N d - 48))%Z rest
  end.

Definition tokenValue (t : jsstring) : Z :=
  match t with
  | c :: ds => if N.eqb c minus then (- digitsValue 0 ds)%Z
               else digitsValue 0 t
  | [] => 0%Z
  end.

(** [s] starts with a text of the pattern whose groups are [c1 c2 c3]. *)
Definition matchesAt (s c1 c2 c3 : jsstring) : Prop :=
  exists w1 w2 w3 w4 w5 w6 w7 rest,
    spaces w1 /\ spaces w2 /\ spaces w3 /\ spaces w4 /\ spaces w5
    /\ spaces w6 /\ spaces w7
    /\ intToken c1 /\ intToken c2 /\ intToken c3
    /\ s = lit "rgb" ++ w1 ++ [lparen] ++ w2 ++ c1 ++ w3 ++ [comma]
           ++ w4 ++ c2 ++ w5 ++ [comma] ++ w6 ++ c3 ++ w7 ++ [rparen]
           ++ rest.

(** The pattern matches somewhere in [s]. *)
Definition matchesSomewhere (s : jsstring) : Prop :=
  exists before m c1 c2 c3, s = before ++ m /\ matchesAt m c1 c2 c3.

(** The leftmost match of the pattern in [s] starts after [before]. *)
Definition leftmostMatch (s before c1 c2 c3 : jsstring) : Prop :=
  exists m, s = before ++ m /\ matchesAt m c1 c2 c3
    /\ forall b' m' d1 d2 d3,
         s = b' ++ m' -> List.length b' < List.length before ->
         ~ matchesAt m' d1 d2 d3.

(** *** Rows made of plain and quoted cells *)

Inductive cell : Type :=
| Plain (text : jsstring)
| Quoted (text : jsstring).

Definition cellText (c : cell) : jsstring :=
  match c with Plain t => t | Quoted t => t end.

(** How a cell is written in a row. *)
Definition cellSource (c : cell) : jsstring :=
  match c with
  | Plain t => t
  | Quoted t => [dquote] ++ t ++ [dquote]
  end.

(** A plain cell has neither comma nor quote; a quoted cell has no quote
    inside and may have commas. *)
Definition cellOk (c : cell) : bool :=
  match c with
  | Plain t => negb (includes comma t) && negb (includes dquote t)
  | Quoted t => negb (includes dquote t)
  end.

Definition rowSource (cells : list cell) : jsstring :=
  join [comma] (List.map cellSource cells).

(** *** The header split as the specification words it: on the commas
    outside quotes, names trimmed *)

Definition consHead (c : N) (pieces : list jsstring) : list jsstring :=
  match pieces with
  | [] => [[c]]
  | h :: r => (c :: h) :: r
  end.

Fixpoint splitUnquoted (inq : bool) (s : jsstring) : list jsstring :=
  match s with
  | [] => [[]]
  | c :: t =>
      if N.eqb c dquote then consHead c (splitUnquoted (negb inq) t)
      else if N.eqb c comma && negb inq then [] :: splitUnquoted inq t
      else consHead c (splitUnquoted inq t)
  end.

Definition headerNames_spec (line : jsstring) : list jsstring :=
  List.map trim (splitUnquoted false line).

(** *** Groups in order of first appearance *)

Definition keyIs (key : jsstring) (color : ColorInfo) : bool :=
  str_eqb (languageKey color) key.

(** The distinct keys of a list, each at its first occurrence. *)
Fixpoint firstSeen (keys : list jsstring) : list jsstring :=
  match keys with
  | [] => []
  | k :: rest =>
      k :: filter (fun k' => negb (str_eqb k k')) (firstSeen rest)
  end.

(** *** Reading a line of the emitted CSV back *)

(** The text of a quoted field, from just after its opening quote, and
    what follows its closing quote; a doubled quote stands for one. *)
Fixpoint unquote (s : jsstring) : option (jsstring * jsstring) :=
  match s with
  | [] => None
  | c :: t =>
      if N.eqb c dquote then
        match t with
        | d :: t' =>
            if N.eqb d dquote then
              '(n, r) <- unquote t' ;; Some (dquote :: n, r)
            else Some ([], t)
        | [] => Some ([], [])
        end
      else '(n, r) <- unquote t ;; Some (c :: n, r)
  end.

Definition notComma (c : N) : bool := negb (N.eqb c comma).

(** The [(name, hex)] pair that a line [name,hex] of the emitted CSV
    holds, with the quoting of the name undone. *)
Definition readCsvLine (line : jsstring) : option ColorEntry :=
  match line with
  | c :: t =>
      if N.eqb c dquote then
        '(n, r) <- unquote t ;;
        match r with
        | c' :: h => if N.eqb c' comma then Some (MkEntry n h) else None
        | [] => None
        end
      else
        match dropWhile notComma line with
        | _ :: h => Some (MkEntry (takeWhile notComma line) h)
        | [] => None
        end
  | [] => None
  end.

(** *** The shape of the emitted SVG *)

(** The [<defs>] block of the template (its lines 2 to 11). *)
Definition svgDefs : jsstring :=
  join [linefeed]
    [lit "  <defs>";
     lit "    <style type=" ++ q "text/css" ++ lit ">";
     lit "      @import url('https://rsms.me/inter/inter.css');";
     lit "      text {";
     lit "        font-family: Inter, -apple-system, BlinkMacSystemFont, " ++ q "Segoe UI" ++ lit ", Roboto, Helvetica, Arial, sans-serif, " ++ q "Apple Color Emoji" ++ lit ", " ++ q "Segoe UI Emoji" ++ lit ", " ++ q "Segoe UI Symbol" ++ lit ";";
     lit "        font-size: 40px;";
     lit "        font-weight: 900;";
     lit "      }";
     lit "    </style>";
     lit "  </defs>"].

(** The three fixed stretches of the template before the items: up to
    the height in the [viewBox], from there to the height of the
    background [rect] (of width 600), and from there to the items. *)
Definition svgHead : jsstring :=
  lit "<svg xmlns=" ++ q "http://www.w3.org/2000/svg" ++ lit " viewBox="
  ++ [dquote] ++ lit "0 0 600 ".

Definition svgBody : jsstring :=
  [dquote] ++ lit ">" ++ [linefeed] ++ svgDefs ++ [linefeed]
  ++ lit "  <rect fill=" ++ q "#202124" ++ lit " x=" ++ q "0" ++ lit " y="
  ++ q "0" ++ lit " width=" ++ q "600" ++ lit " height=" ++ [dquote].

Definition svgBeforeItems : jsstring :=
  [dquote] ++ lit "/>" ++ [linefeed] ++ lit "  ".

(** The document up to the place of the items, for the height text [h]. *)
Definition svgOpen (h : jsstring) : jsstring :=
  svgHead ++ h ++ svgBody ++ h ++ svgBeforeItems.

(** The document after the items. *)
Definition svgClose : jsstring := [linefeed] ++ lit "</svg>".

(** One text element: its [y], its [fill] and its label; right-anchored
    at 560 for a right-to-left language, left-anchored at 40 otherwise. *)
Definition textElement (rtl : bool) (y : Z) (fill label : jsstring) : jsstring :=
  if rtl then
    lit "<text x=" ++ q "560" ++ lit " y=" ++ [dquote] ++ String_of y
    ++ [dquote] ++ lit " fill=" ++ [dquote] ++ fill ++ [dquote]
    ++ lit " text-anchor=" ++ q "end" ++ lit " xml:lang=" ++ q "fa"
    ++ lit " unicode-bidi=" ++ q "embed" ++ lit ">" ++ label ++ lit "</text>"
  else
    lit "<text x=" ++ q "40" ++ lit " y=" ++ [dquote] ++ String_of y
    ++ [dquote] ++ lit " fill=" ++ [dquote] ++ fill ++ [dquote]
    ++ lit ">" ++ label ++ lit "</text>".

(** What [replace] puts in the place of [{items}]: the items with the
    [$] patterns of the replacement text expanded. *)
Definition expandedItems (h items : jsstring) : jsstring :=
  substitution (lit "{items}") (svgOpen h) svgClose items.

(** The [y] attributes of the text elements of the items, in order. *)
Definition itemYs (colors : list ColorInfo) : list Z :=
  mapi (fun i _ => itemY i) 0 colors.

(** *** Literal patterns that cannot start inside a text *)

(** [pat] and [u] differ at a position that both have. *)
Fixpoint clash (pat u : jsstring) : bool :=
  match pat, u with
  | p :: pat', c :: u' => if N.eqb p c then clash pat' u' else true
  | _, _ => false
  end.

(** At no position of [t] can a match of [pat] start, whatever follows
    [t]. *)
Fixpoint clean (pat t : jsstring) : bool :=
  match t with
  | [] => true
  | _ :: t' => clash pat t && clean pat t'
  end.

(** *** The end-to-end scenario of the specification *)

(** The header of the upstream table: the fields of [ColorInfo] in the
    order of their declaration, which is the order of the values of the
    row below. *)
Definition upstreamHeader : jsstring :=
  lit "lang,lang_abv,simplifiedName,commonName,avgColorRGBCode,totalColorFraction,avgL,avgA,avgB".

Definition spanishRow : jsstring :=
  lit "Spanish,es,claro,light blue," ++ q "rgb(91, 155, 213)"
  ++ lit ",0.02,70,1,-30".

Definition spanishCsv : jsstring := upstreamHeader ++ [linefeed] ++ spanishRow.

Definition spanishRecord : ColorInfo :=
  MkColorInfo (lit "Spanish") (lit "es") (lit "claro") (lit "light blue")
    (lit "rgb(91, 155, 213)") (lit "0.02") (lit "70") (lit "1") (lit "-30").

(** The text of [es-spanish.json]: the array of the one entry, indented
    by two spaces. *)
Definition spanishJson : jsstring :=
  lit "[" ++ [linefeed]
  ++ lit "  {" ++ [linefeed]
  ++ lit "    " ++ q "name" ++ lit ": " ++ q "light blue" ++ lit "," ++ [linefeed]
  ++ lit "    " ++ q "hex" ++ lit ": " ++ q "#5b9bd5" ++ [linefeed]
  ++ lit "  }" ++ [linefeed]
  ++ lit "]".

(** *** Reading the emitted JSON back *)

Definition isJsonSpace (c : N) : bool :=
  ((c =? 32) || (c =? 9) || (c =? 10) || (c =? 13))%N.

Definition skipJsonSpaces (s : jsstring) : jsstring := dropWhile isJsonSpace s.

Definition hexValue4 (h1 h2 h3 h4 : N) : option N :=
  a <- hexDigitValue h1 ;; b <- hexDigitValue h2 ;;
  c <- hexDigitValue h3 ;; d <- hexDigitValue h4 ;;
  Some (Z.to_N (4096 * a + 256 * b + 16 * c + d)).

(** The character that a two-character escape stands for. *)
Definition unescape (e : N) : option N :=
  if (e =? 98)%N then Some 8%N
  else if (e =? 116)%N then Some 9%N
  else if (e =? 110)%N then Some 10%N
  else if (e =? 102)%N then Some 12%N
  else if (e =? 114)%N then Some 13%N
  else if (e =? 34)%N then Some 34%N
  else if (e =? 92)%N then Some 92%N
  else if (e =? 47)%N then Some 47%N
  else None.

(** The value of a JSON string from just after its opening quote, and
    the text after its closing quote. *)
Fixpoint readChars (s : jsstring) : option (jsstring * jsstring) :=
  match s with
  | [] => None
  | c :: t =>
      if N.eqb c dquote then Some ([], t)
      else if N.eqb c Json.backslash then
        match t with
        | e :: t1 =>
            if N.eqb e 117%N then
              match t1 with
              | h1 :: h2 :: h3 :: h4 :: t2 =>
                  v <- hexValue4 h1 h2 h3 h4 ;;
                  '(n, r) <- readChars t2 ;; Some (v :: n, r)
              | _ => None
              end
            else
              v <- unescape e ;;
              '(n, r) <- readChars t1 ;; Some (v :: n, r)
        | [] => None
        end
      else '(n, r) <- readChars t ;; Some (c :: n, r)
  end.

Definition readQuoted (s : jsstring) : option (jsstring * jsstring) :=
  match s with
  | c :: t => if N.eqb c dquote then readChars t else None
  | [] => None
  end.

(** One object with the members [name] and [hex], in this order. *)
Definition readEntry (s : jsstring) : option (ColorEntry * jsstring) :=
  s <- expect 123 s ;;
  '(k1, s) <- readQuoted (skipJsonSpaces s) ;;
  s <- expect 58 (skipJsonSpaces s) ;;
  '(n, s) <- readQuoted (skipJsonSpaces s) ;;
  s <- expect comma (skipJsonSpaces s) ;;
  '(k2, s) <- readQuoted (skipJsonSpaces s) ;;
  s <- expect 58 (skipJsonSpaces s) ;;
  '(h, s) <- readQuoted (skipJsonSpaces s) ;;
  s <- expect 125 (skipJsonSpaces s) ;;
  if str_eqb k1 (lit "name") && str_eqb k2 (lit "hex")
  then Some (MkEntry n h, s) else None.

(** The objects of an array from its first object on, up to the closing
    bracket that ends the text. *)
Fixpoint readEntries (fuel : nat) (s : jsstring) : option (list ColorEntry) :=
  match fuel with
  | O => None
  | S fuel' =>
      '(e, r) <- readEntry s ;;
      match skipJsonSpaces r with
      | c :: r' =>
          if N.eqb c comma then
            es <- readEntries fuel' (skipJsonSpaces r') ;; Some (e :: es)
          else if N.eqb c 93%N then
            match r' with [] => Some [e] | _ :: _ => None end
          else None
      | [] => None
      end
  end.

(** The entries of a JSON text that is an array of [{name, hex}]
    objects. *)
Definition readJson (s : jsstring) : option (list ColorEntry) :=
  match skipJsonSpaces s with
  | c :: r =>
      if N.eqb c 91%N then
        match skipJsonSpaces r with
        | [c'] => if N.eqb c' 93%N then Some [] else None
        | r' => readEntries (List.length s) r'
        end
      else None
  | [] => None
  end.

(** The [len] numbers from [start] on. *)
Fixpoint nrange (start : N) (len : nat) : list N :=
  match len with
  | O => []
  | S len' => start :: nrange (N.succ start) len'
  end.

(** The characters of a [#rrggbb] text. *)
Definition isHexText (c : N) : bool :=
  ((c =? 35) || isDigit c || (97 <=? c) && (c <=? 102))%N.

End Reference.
Import Reference.

(** *** Two hexadecimal digits of a byte, as the specification words the
    format *)

Definition hexDigit (d : Z) : N :=
  nth (Z.to_nat d) (lit "0123456789abcdef") 0%N.

Definition twoHex (v : Z) : jsstring := [hexDigit (v / 16); hexDigit (v mod 16)].

(** Clamping to the closed range from 0 to 255. *)
Definition clampByte (v : Z) : Z :=
  if (v <? 0)%Z then 0%Z else if (255 <? v)%Z then 255%Z else v.

(** ** Notions used in the statements and proofs of Part II *)

(** [p] does not hold of the first character of [s], if there is one. *)
Definition stops (p : N -> bool) (s : jsstring) : Prop :=
  match s with
  | [] => True
  | c :: _ => p c = false
  end.

(** The state of the row scanner after [text], from the state [st]. *)
Definition scanFrom (st : scan) (text : jsstring) : scan :=
  fold_left scanChar text st.

(** A text without a double quote; an object all of whose values are. *)
Definition quoteFree (s : jsstring) : Prop := ~ In dquote s.
Definition valuesQuoteFree (o : object) : Prop :=
  Forall (fun kv => quoteFree (snd kv)) o.

(** The entry of key [key] once the records [seen] have been grouped, and
    the keys of these records. *)
Definition groupOf (seen : list ColorInfo) (key : jsstring)
    : jsstring * list ColorInfo :=
  (key, filter (keyIs key) seen).
Definition keysOf (seen : list ColorInfo) : list jsstring :=
  List.map languageKey seen.

(** Records of three languages; the third has no short code. *)
Definition enRecord (term : string) : ColorInfo :=
  MkColorInfo (lit "English") (lit "en") (lit term) [] (lit "rgb(1, 2, 3)")
    [] [] [] [].
Definition frRecord (term : string) : ColorInfo :=
  MkColorInfo (lit "French") (lit "fr") (lit term) [] (lit "rgb(4, 5, 6)")
    [] [] [] [].
Definition bareRecord (term : string) : ColorInfo :=
  MkColorInfo (lit "German") [] (lit term) [] (lit "rgb(7, 8, 9)")
    [] [] [] [].

(** The four digits of the escape of [c] read back as [c]. *)
Definition escapeReadsBack (c : N) : bool :=
  match hexValue4 (digitChar (c / 4096)) (digitChar ((c / 256) mod 16))
          (digitChar ((c / 16) mod 16)) (digitChar (c mod 16)) with
  | Some v => N.eqb v c
  | None => false
  end.

(** A character put in front of what a reader returns. *)
Definition consRead (c : N) (r : option (jsstring * jsstring))
    : option (jsstring * jsstring) :=
  '(n, rest) <- r ;; Some (c :: n, rest).

(** What [JSON.stringify] puts between two objects of the array. *)
Definition entrySeparator : jsstring := lit "," ++ [linefeed] ++ lit "  ".

(** ** Further notions used in the statements *)

(** A lowercase hexadecimal digit. *)
Definition isLowerHexDigit (c : N) : bool :=
  (isDigit c || (97 <=? c) && (c <=? 102))%N.

(** The number of occurrences of a character. *)
Definition countChar (c : N) (s : jsstring) : nat :=
  List.length (filter (N.eqb c) s).

(** A text with its double quotes taken out. *)
Definition withoutQuotes (s : jsstring) : jsstring :=
  filter (fun c => negb (N.eqb c dquote)) s.

(** The last position, counted from [i], at which [key] stands in
    [headers]. *)
Fixpoint lastIndexFrom (i : nat) (key : jsstring) (headers : list jsstring)
    : option nat :=
  match headers with
  | [] => None
  | h :: rest =>
      match lastIndexFrom (S i) key rest with
      | Some j => Some j
      | None => if str_eqb h key then Some i else None
      end
  end.

(** The names of the fields of [ColorInfo]. *)
Definition colorInfoFields : list jsstring :=
  [lit "lang"; lit "lang_abv"; lit "simplifiedName"; lit "commonName";
   lit "avgColorRGBCode"; lit "totalColorFraction"; lit "avgL"; lit "avgA";
   lit "avgB"].

(** A text that neither starts nor ends with white space. *)
Definition isTrimmed (s : jsstring) : Prop :=
  stops isWhiteSpace s /\ stops isWhiteSpace (rev s).

(** The value of the field [field] in the row [line] under [headers]: the
    value at the last column of that name, empty when the row is too short
    or there is no such column. *)
Definition fieldOf (headers : list jsstring) (line field : jsstring) : jsstring :=
  match lastIndexFrom 0 field headers with
  | Some j => valueOrEmpty (rowValues line) j
  | None => []
  end.

(** The record of a row. *)
Definition recordOf (headers : list jsstring) (line : jsstring) : ColorInfo :=
  MkColorInfo (fieldOf headers line (lit "lang"))
    (fieldOf headers line (lit "lang_abv"))
    (fieldOf headers line (lit "simplifiedName"))
    (fieldOf headers line (lit "commonName"))
    (fieldOf headers line (lit "avgColorRGBCode"))
    (fieldOf headers line (lit "totalColorFraction"))
    (fieldOf headers line (lit "avgL"))
    (fieldOf headers line (lit "avgA"))
    (fieldOf headers line (lit "avgB")).

(** [cur] put in front of the first of some pieces. *)
Definition prependTo (cur : jsstring) (pieces : list jsstring) : list jsstring :=
  match pieces with
  | [] => [cur]
  | h :: r => (cur ++ h) :: r
  end.

(** The escape of one character in the text of an SVG element. *)
Definition escapeXmlChar (c : N) : jsstring :=
  if N.eqb c 38 then lit "&amp;"
  else if N.eqb c 60 then lit "&lt;"
  else if N.eqb c 62 then lit "&gt;"
  else [c].

(** The character that an entity after [&] stands for, and the length of
    the entity. *)
Definition entityAt (t : jsstring) : option (N * nat) :=
  match afterPrefix (lit "amp;") t with
  | Some _ => Some (38%N, 4)
  | None =>
      match afterPrefix (lit "lt;") t with
      | Some _ => Some (60%N, 3)
      | None =>
          match afterPrefix (lit "gt;") t with
          | Some _ => Some (62%N, 3)
          | None => None
          end
      end
  end.

(** The text that an escaped text stands for; [skip] counts the
    characters of an entity still to step over. *)
Fixpoint xmlUnescapeFrom (skip : nat) (s : jsstring) : jsstring :=
  match s with
  | [] => []
  | c :: t =>
      match skip with
      | S k => xmlUnescapeFrom k t
      | O =>
          if N.eqb c 38 then
            match entityAt t with
            | Some (x, n) => x :: xmlUnescapeFrom n t
            | None => c :: xmlUnescapeFrom 0 t
            end
          else c :: xmlUnescapeFrom 0 t
      end
  end.

Definition xmlUnescape (s : jsstring) : jsstring := xmlUnescapeFrom 0 s.

(** No white space in a text. *)
Definition noSpace (s : jsstring) : bool :=
  forallb (fun c => negb (isWhiteSpace c)) s.

(** Three rows under a three-column header: the specification's row
    with a quoted colour, the same row with white space around the quotes,
    and a row whose quoted name holds doubled quotes and a comma. *)
Definition exampleHeader : jsstring :=
  lit "lang,avgColorRGBCode,totalColorFraction".

Definition exampleRow : jsstring :=
  lit "Language X," ++ q "rgb(1, 2, 3)" ++ lit ",0.5".

Definition spacedRow : jsstring :=
  lit "Language X, " ++ q "rgb(1, 2, 3)" ++ lit " ,0.5".

Definition doubledRow : jsstring :=
  [dquote] ++ lit "a " ++ [dquote; dquote] ++ lit "b" ++ [dquote; dquote]
  ++ lit ", c" ++ [dquote] ++ lit ",#010203".

Definition exampleCsv : jsstring :=
  exampleHeader ++ [linefeed] ++ exampleRow ++ [linefeed] ++ spacedRow
  ++ [linefeed] ++ doubledRow.

(** Every maximal run of white space written as one hyphen: a hyphen
    stands where a run begins, and the rest of the run is dropped
    ([inRun] tells that the character before was white space). *)
Fixpoint hyphenateRuns (inRun : bool) (s : jsstring) : jsstring :=
  match s with
  | [] => []
  | c :: t =>
      if isWhiteSpace c then
        if inRun then hyphenateRuns true t else minus :: hyphenateRuns true t
      else c :: hyphenateRuns false t
  end.

(* ================================================================== *)
(** * Part II: properties                                              *)
(* ================================================================== *)

(** ** Strings *)

Lemma str_eqb_eq (a b : jsstring) : str_eqb a b = true <-> a = b.
Proof.
  revert b; induction a as [|x a IH]; intros [|y b]; simpl;
    try (split; [discriminate | congruence]); try tauto.
  rewrite andb_true_iff, N.eqb_eq, IH. split.
  - intros [-> ->]; reflexivity.
  - intros E; inversion E; auto.
Qed.

Lemma str_eqb_refl (a : jsstring) : str_eqb a a = true.
Proof. apply str_eqb_eq; reflexivity. Qed.

Lemma str_eqb_neq (a b : jsstring) : str_eqb a b = false <-> a <> b.
Proof.
  rewrite <- str_eqb_eq. destruct (str_eqb a b); split; congruence.
Qed.

Lemma str_eqb_sym (a b : jsstring) : str_eqb a b = str_eqb b a.
Proof.
  destruct (str_eqb a b) eqn:E.
  - apply str_eqb_eq in E; subst; symmetry; apply str_eqb_refl.
  - symmetry; apply str_eqb_neq; apply str_eqb_neq in E; congruence.
Qed.

Lemma takeWhile_app p a rest :
  forallb p a = true -> stops p rest -> takeWhile p (a ++ rest) = a.
Proof.
  induction a as [|c a IH]; simpl; intros Ha Hr.
  - destruct rest as [|c r]; simpl in *; [reflexivity | now rewrite Hr].
  - apply andb_true_iff in Ha as [-> Ha]. now rewrite IH.
Qed.

Lemma dropWhile_app p a rest :
  forallb p a = true -> stops p rest -> dropWhile p (a ++ rest) = rest.
Proof.
  induction a as [|c a IH]; simpl; intros Ha Hr.
  - destruct rest as [|c r]; simpl in *; [reflexivity | now rewrite Hr].
  - apply andb_true_iff in Ha as [-> Ha]. now apply IH.
Qed.

Lemma takeWhile_dropWhile p s : takeWhile p s ++ dropWhile p s = s.
Proof.
  induction s as [|c s IH]; simpl; [reflexivity|].
  destruct (p c); simpl; [now rewrite IH | reflexivity].
Qed.

Lemma takeWhile_all p s : forallb p (takeWhile p s) = true.
Proof.
  induction s as [|c s IH]; simpl; [reflexivity|].
  destruct (p c) eqn:E; simpl; [now rewrite E | reflexivity].
Qed.

Lemma dropWhile_stops p s : stops p (dropWhile p s).
Proof.
  induction s as [|c s IH]; simpl; [exact I|].
  destruct (p c) eqn:E; simpl; [exact IH | exact E].
Qed.

Lemma takeWhile_id p s : forallb p s = true -> takeWhile p s = s.
Proof.
  intros H. rewrite <- (app_nil_r s) at 1. now apply takeWhile_app.
Qed.

Lemma In_dropWhile p c s : In c (dropWhile p s) -> In c s.
Proof.
  induction s as [|x s IH]; simpl; [tauto|].
  destruct (p x); simpl; intuition.
Qed.

Lemma In_trim c s : In c (trim s) -> In c s.
Proof.
  unfold trim, trimEnd, trimStart. intros H.
  apply in_rev, In_dropWhile, in_rev, In_dropWhile in H. exact H.
Qed.

Lemma includes_cons x c t :
  includes x (c :: t) = (N.eqb x c || includes x t)%bool.
Proof. reflexivity. Qed.

Lemma includes_false c s : includes c s = false <-> ~ In c s.
Proof.
  unfold includes. induction s as [|x s IH]; simpl; [tauto|].
  rewrite orb_false_iff, IH, N.eqb_neq. intuition congruence.
Qed.

Lemma includes_app c a b :
  includes c (a ++ b) = (includes c a || includes c b)%bool.
Proof. apply existsb_app. Qed.

Lemma class_excludes (p : N -> bool) c t :
  p c = false -> forallb p t = true -> includes c t = false.
Proof.
  intros Hc Ht. apply includes_false. intros Hin.
  rewrite forallb_forall in Ht. specialize (Ht c Hin). congruence.
Qed.

(** ** A property of every byte value, checked on the 256 values *)

Lemma byte_cases (check : Z -> bool) :
  forallb (fun n => check (Z.of_nat n)) (seq 0 256) = true ->
  forall v, (0 <= v <= 255)%Z -> check v = true.
Proof.
  intros H v Hv. rewrite forallb_forall in H.
  rewrite <- (Z2Nat.id v) by lia. apply H, in_seq. lia.
Qed.

(** ** The scanner of [rgbToHex] and the language of its pattern *)

Ltac bool_to_prop :=
  repeat match goal with
  | H : (_ && _)%bool = true |- _ => apply andb_true_iff in H; destruct H
  | H : (_ || _)%bool = true |- _ => apply orb_true_iff in H; destruct H
  | H : (_ <=? _)%N = true |- _ => apply N.leb_le in H
  | H : (_ <? _)%N = true |- _ => apply N.ltb_lt in H
  | H : (_ =? _)%N = true |- _ => apply N.eqb_eq in H
  | H : (_ <=? _)%N = false |- _ => apply N.leb_gt in H
  | H : (_ <? _)%N = false |- _ => apply N.ltb_ge in H
  | H : (_ =? _)%N = false |- _ => apply N.eqb_neq in H
  end.

Lemma digit_not_space c : isDigit c = true -> isWhiteSpace c = false.
Proof.
  intros H. destruct (isWhiteSpace c) eqn:E; [|reflexivity].
  unfold isDigit, isWhiteSpace in *. bool_to_prop; lia.
Qed.

Lemma space_not_digit c : isWhiteSpace c = true -> isDigit c = false.
Proof.
  intros H. destruct (isDigit c) eqn:E; [|reflexivity].
  apply digit_not_space in E. congruence.
Qed.

Lemma digit_not_minus c : isDigit c = true -> N.eqb c minus = false.
Proof.
  intros H. apply N.eqb_neq. unfold isDigit, minus in *. bool_to_prop; lia.
Qed.

Lemma bind_inv {A B} (a : option A) (k : A -> option B) (y : B) :
  bind a k = Some y -> exists x, a = Some x /\ k x = Some y.
Proof. destruct a as [x|]; simpl; [eauto | discriminate]. Qed.

Lemma expect_inv c s t : expect c s = Some t -> s = c :: t.
Proof.
  destruct s as [|x s]; simpl; [discriminate|].
  destruct (N.eqb x c) eqn:E; [|discriminate].
  apply N.eqb_eq in E. congruence.
Qed.

Lemma expect_cons c t : expect c (c :: t) = Some t.
Proof. simpl. now rewrite N.eqb_refl. Qed.

Lemma skipSpaces_app w r :
  spaces w -> stops isWhiteSpace r -> skipSpaces (w ++ r) = r.
Proof. apply dropWhile_app. Qed.

Lemma skipSpaces_inv s :
  exists w, spaces w /\ s = w ++ skipSpaces s.
Proof.
  exists (takeWhile isWhiteSpace s). split.
  - apply takeWhile_all.
  - symmetry; apply takeWhile_dropWhile.
Qed.

Lemma digits1_app ds r :
  digitRun ds -> stops isDigit r -> digits1 (ds ++ r) = Some (ds, r).
Proof.
  intros [Hne Hd] Hr. unfold digits1.
  rewrite takeWhile_app, dropWhile_app by assumption.
  destruct ds; [congruence | reflexivity].
Qed.

Lemma digits1_inv s ds r :
  digits1 s = Some (ds, r) -> digitRun ds /\ s = ds ++ r.
Proof.
  unfold digits1. intros H.
  pose proof (takeWhile_all isDigit s) as Hall.
  pose proof (takeWhile_dropWhile isDigit s) as Hs.
  destruct (takeWhile isDigit s) as [|d ds'] eqn:E; [discriminate|].
  inversion H; subst. split; [split; [discriminate | exact Hall] | now symmetry].
Qed.

Lemma intGroup_app c r :
  intToken c -> stops isDigit r -> intGroup (c ++ r) = Some (c, r).
Proof.
  intros [ds Hds | ds Hds] Hr.
  - destruct ds as [|d ds'] eqn:E; [now destruct Hds|].
    assert (Hd : isDigit d = true) by (destruct Hds as [_ H]; simpl in H;
      now apply andb_true_iff in H).
    change ((d :: ds') ++ r) with (d :: (ds' ++ r)). unfold intGroup.
    rewrite (digit_not_minus _ Hd).
    change (d :: (ds' ++ r)) with ((d :: ds') ++ r).
    now apply digits1_app.
  - change ((minus :: ds) ++ r) with (minus :: (ds ++ r)). unfold intGroup.
    rewrite N.eqb_refl, digits1_app by assumption. reflexivity.
Qed.

Lemma intGroup_inv s c r :
  intGroup s = Some (c, r) -> intToken c /\ s = c ++ r.
Proof.
  destruct s as [|x s]; simpl; [discriminate|].
  destruct (N.eqb x minus) eqn:E.
  - apply N.eqb_eq in E; subst x. intros H.
    apply bind_inv in H as [[ds r'] [Hd H]]. inversion H; subst.
    apply digits1_inv in Hd as [Hrun ->]. split; [now constructor | reflexivity].
  - intros H. apply digits1_inv in H as [Hrun ->].
    split; [now constructor | reflexivity].
Qed.

Lemma intToken_stops c r : intToken c -> stops isWhiteSpace (c ++ r).
Proof.
  intros [ds [Hne Hd] | ds _]; [|reflexivity].
  destruct ds as [|d ds]; [congruence|]. simpl in *.
  apply andb_true_iff in Hd as [Hd _]. now apply digit_not_space.
Qed.

Lemma spaces_stops w c r :
  spaces w -> isDigit c = false -> stops isDigit (w ++ c :: r).
Proof.
  intros Hw Hc. destruct w as [|x w]; simpl; [exact Hc|].
  unfold spaces in Hw; simpl in Hw. apply andb_true_iff in Hw as [Hx _].
  now apply space_not_digit.
Qed.

(** The scanner accepts exactly the texts of the pattern, with the same
    groups. *)
Lemma matchAt_complete s c1 c2 c3 :
  matchesAt s c1 c2 c3 -> matchAt s = Some (c1, c2, c3).
Proof.
  intros (w1 & w2 & w3 & w4 & w5 & w6 & w7 & rest & H1 & H2 & H3 & H4 & H5
          & H6 & H7 & T1 & T2 & T3 & ->).
  unfold matchAt. cbn [lit List.map list_ascii_of_string app].
  change (N_of_ascii "r") with 114%N. change (N_of_ascii "g") with 103%N.
  change (N_of_ascii "b") with 98%N.
  do 3 (rewrite expect_cons; cbn [bind]).
  rewrite (skipSpaces_app w1) by (assumption || reflexivity).
  cbn [app]. rewrite expect_cons. cbn [bind].
  rewrite (skipSpaces_app w2) by (assumption || now apply intToken_stops).
  rewrite intGroup_app by (assumption || now apply spaces_stops).
  cbn [bind].
  rewrite (skipSpaces_app w3) by (assumption || reflexivity).
  rewrite expect_cons. cbn [bind].
  rewrite (skipSpaces_app w4) by (assumption || now apply intToken_stops).
  rewrite intGroup_app by (assumption || now apply spaces_stops).
  cbn [bind].
  rewrite (skipSpaces_app w5) by (assumption || reflexivity).
  rewrite expect_cons. cbn [bind].
  rewrite (skipSpaces_app w6) by (assumption || now apply intToken_stops).
  rewrite intGroup_app by (assumption || now apply spaces_stops).
  cbn [bind].
  rewrite (skipSpaces_app w7) by (assumption || reflexivity).
  rewrite expect_cons. reflexivity.
Qed.

Lemma matchAt_sound s c1 c2 c3 :
  matchAt s = Some (c1, c2, c3) -> matchesAt s c1 c2 c3.
Proof.
  unfold matchAt. intros H.
  apply bind_inv in H as (s1 & E1 & H). apply expect_inv in E1.
  apply bind_inv in H as (s2 & E2 & H). apply expect_inv in E2.
  apply bind_inv in H as (s3 & E3 & H). apply expect_inv in E3.
  apply bind_inv in H as (s4 & E4 & H). apply expect_inv in E4.
  apply bind_inv in H as ([d1 s5] & E5 & H). apply intGroup_inv in E5 as [T1 E5].
  apply bind_inv in H as (s6 & E6 & H). apply expect_inv in E6.
  apply bind_inv in H as ([d2 s7] & E7 & H). apply intGroup_inv in E7 as [T2 E7].
  apply bind_inv in H as (s8 & E8 & H). apply expect_inv in E8.
  apply bind_inv in H as ([d3 s9] & E9 & H). apply intGroup_inv in E9 as [T3 E9].
  apply bind_inv in H as (s10 & E10 & H). apply expect_inv in E10.
  inversion H; subst d1 d2 d3; clear H.
  destruct (skipSpaces_inv s3) as (w1 & W1 & F1).
  destruct (skipSpaces_inv s4) as (w2 & W2 & F2).
  destruct (skipSpaces_inv s5) as (w3 & W3 & F3).
  destruct (skipSpaces_inv s6) as (w4 & W4 & F4).
  destruct (skipSpaces_inv s7) as (w5 & W5 & F5).
  destruct (skipSpaces_inv s8) as (w6 & W6 & F6).
  destruct (skipSpaces_inv s9) as (w7 & W7 & F7).
  exists w1, w2, w3, w4, w5, w6, w7, s10.
  repeat (split; [assumption|]).
  rewrite E1, E2, E3, F1, E4, F2, E5, F3, E6, F4, E7, F5, E8, F6, E9, F7, E10.
  reflexivity.
Qed.

Lemma matchAt_iff s c1 c2 c3 :
  matchAt s = Some (c1, c2, c3) <-> matchesAt s c1 c2 c3.
Proof. split; [apply matchAt_sound | apply matchAt_complete]. Qed.

Lemma rgbMatch_unfold s :
  rgbMatch s = match matchAt s with
               | Some m => Some m
               | None => match s with [] => None | _ :: t => rgbMatch t end
               end.
Proof. destruct s; reflexivity. Qed.

(** [rgbMatch] returns the groups of the leftmost match. *)
Lemma rgbMatch_leftmost s before c1 c2 c3 :
  leftmostMatch s before c1 c2 c3 -> rgbMatch s = Some (c1, c2, c3).
Proof.
  revert s. induction before as [|x b IH]; intros s (m & -> & Hm & Hmin).
  - rewrite rgbMatch_unfold. simpl. now rewrite (matchAt_complete _ _ _ _ Hm).
  - rewrite rgbMatch_unfold.
    destruct (matchAt ((x :: b) ++ m)) as [[[d1 d2] d3]|] eqn:E.
    + exfalso. apply matchAt_sound in E.
      apply (Hmin [] ((x :: b) ++ m) d1 d2 d3); simpl; [reflexivity | lia | exact E].
    + simpl. apply IH. exists m. split; [reflexivity|]. split; [exact Hm|].
      intros b' m' d1 d2 d3 Eq Hlen. apply (Hmin (x :: b') m').
      * simpl. now rewrite Eq.
      * simpl. lia.
Qed.

Lemma rgbMatch_sound s c1 c2 c3 :
  rgbMatch s = Some (c1, c2, c3) -> exists before, leftmostMatch s before c1 c2 c3.
Proof.
  induction s as [|x s IH]; rewrite rgbMatch_unfold.
  - destruct (matchAt []) eqn:E; [|discriminate]. vm_compute in E. discriminate.
  - destruct (matchAt (x :: s)) as [[[d1 d2] d3]|] eqn:E.
    + intros H; inversion H; subst. exists [], (x :: s).
      split; [reflexivity|]. split; [now apply matchAt_sound|].
      intros b' m' e1 e2 e3 _ Hlen. simpl in Hlen. lia.
    + intros H. destruct (IH H) as (b & m & Es & Hm & Hmin).
      exists (x :: b), m. split; [simpl; now rewrite Es|]. split; [exact Hm|].
      intros b' m' e1 e2 e3 Eq Hlen Hm'. destruct b' as [|y b'].
      * simpl in Eq. subst m'. apply matchAt_complete in Hm'. congruence.
      * simpl in Eq. inversion Eq; subst y.
        apply (Hmin b' m' e1 e2 e3); [assumption | simpl in Hlen; lia | exact Hm'].
Qed.

(** [rgbMatch] fails exactly on the texts without a match. *)
Lemma rgbMatch_none_iff s : rgbMatch s = None <-> ~ matchesSomewhere s.
Proof.
  split.
  - induction s as [|x s IH]; rewrite rgbMatch_unfold; intros H (b & m & c1 & c2 & c3 & Es & Hm).
    + destruct b; [|discriminate]. simpl in Es; subst m.
      apply matchAt_complete in Hm. vm_compute in Hm. discriminate.
    + destruct (matchAt (x :: s)) eqn:E; [discriminate|].
      destruct b as [|y b].
      * simpl in Es; subst m. apply matchAt_complete in Hm. congruence.
      * inversion Es; subst. apply (IH H). now exists b, m, c1, c2, c3.
  - intros H. destruct (rgbMatch s) as [[[c1 c2] c3]|] eqn:E; [|reflexivity].
    exfalso. apply H. apply rgbMatch_sound in E as (b & m & Es & Hm & _).
    now exists b, m, c1, c2, c3.
Qed.

(** ** [parseInt], [clamp] and the hexadecimal format on the groups *)

Lemma decimalValue_digitsValue ds : decimalValue ds = digitsValue 0 ds.
Proof.
  unfold decimalValue. generalize 0%Z as acc.
  induction ds as [|d ds IH]; intros acc; simpl; [reflexivity | apply IH].
Qed.

Lemma parseInt10_token t : intToken t -> parseInt10 t = Some (tokenValue t).
Proof.
  intros [ds [Hne Hd] | ds [Hne Hd]].
  - destruct ds as [|d ds]; [congruence|].
    assert (Hd0 : isDigit d = true) by (simpl in Hd; now apply andb_true_iff in Hd).
    unfold parseInt10, trimStart. cbn [dropWhile].
    rewrite (digit_not_space _ Hd0), (digit_not_minus _ Hd0).
    assert (E43 : N.eqb d 43 = false)
      by (apply N.eqb_neq; unfold isDigit in Hd0; bool_to_prop; lia).
    rewrite E43, (takeWhile_id _ _ Hd). unfold tokenValue.
    rewrite (digit_not_minus _ Hd0), decimalValue_digitsValue. reflexivity.
  - unfold parseInt10, trimStart. cbn [dropWhile].
    change (isWhiteSpace minus) with false. cbn iota.
    rewrite N.eqb_refl, (takeWhile_id _ _ Hd). unfold tokenValue.
    rewrite N.eqb_refl. destruct ds as [|d ds]; [congruence|].
    now rewrite decimalValue_digitsValue.
Qed.

Lemma clamp_clampByte v : clamp (Some v) = Some (clampByte v).
Proof.
  unfold clamp, clampByte, Math_max, Math_min. simpl. f_equal.
  destruct (Z.ltb_spec v 0), (Z.ltb_spec 255 v); lia.
Qed.

Lemma clampByte_range v : (0 <= clampByte v <= 255)%Z.
Proof.
  unfold clampByte. destruct (Z.ltb_spec v 0), (Z.ltb_spec 255 v); lia.
Qed.

Lemma hexByte_twoHex v :
  (0 <= v <= 255)%Z -> hexByte (Some v) = twoHex v.
Proof.
  intros Hv. apply str_eqb_eq.
  apply (byte_cases (fun v => str_eqb (hexByte (Some v)) (twoHex v)));
    [vm_compute; reflexivity | exact Hv].
Qed.

Lemma rgbToHexLog_groups s c1 c2 c3 :
  rgbMatch s = Some (c1, c2, c3) ->
  rgbToHexLog s =
    ([], lit "#" ++ hexByte (clamp (parseInt10 c1))
         ++ hexByte (clamp (parseInt10 c2)) ++ hexByte (clamp (parseInt10 c3))).
Proof.
  intros H. unfold rgbToHexLog. rewrite H. cbn [List.map join].
  rewrite app_nil_l. reflexivity.
Qed.

(** The result for a match with integer groups. *)
Lemma rgbToHex_of_groups s c1 c2 c3 :
  rgbMatch s = Some (c1, c2, c3) ->
  intToken c1 -> intToken c2 -> intToken c3 ->
  rgbToHex s =
    lit "#" ++ twoHex (clampByte (tokenValue c1))
    ++ twoHex (clampByte (tokenValue c2))
    ++ twoHex (clampByte (tokenValue c3)).
Proof.
  intros H T1 T2 T3. unfold rgbToHex.
  rewrite (rgbToHexLog_groups _ _ _ _ H). cbn [snd].
  rewrite !parseInt10_token by assumption.
  rewrite !clamp_clampByte.
  rewrite !hexByte_twoHex by apply clampByte_range.
  reflexivity.
Qed.

(** Every result is [#] and three bytes in two lowercase hexadecimal
    digits each. *)
Lemma rgbToHex_shape s :
  exists r g b,
    (0 <= r <= 255)%Z /\ (0 <= g <= 255)%Z /\ (0 <= b <= 255)%Z
    /\ rgbToHex s = lit "#" ++ twoHex r ++ twoHex g ++ twoHex b.
Proof.
  destruct (rgbMatch s) as [[[c1 c2] c3]|] eqn:E.
  - pose proof (rgbMatch_sound _ _ _ _ E) as (before & m & _ & Hm & _).
    destruct Hm as (w1 & w2 & w3 & w4 & w5 & w6 & w7 & rest & _ & _ & _ & _
                    & _ & _ & _ & T1 & T2 & T3 & _).
    exists (clampByte (tokenValue c1)), (clampByte (tokenValue c2)),
      (clampByte (tokenValue c3)).
    repeat (split; [apply clampByte_range|]).
    now apply rgbToHex_of_groups.
  - exists 0%Z, 0%Z, 0%Z. repeat (split; [lia|]).
    unfold rgbToHex, rgbToHexLog. rewrite E. reflexivity.
Qed.

(** Every result has seven characters. *)
Lemma rgbToHex_length s : List.length (rgbToHex s) = 7.
Proof.
  destruct (rgbToHex_shape s) as (r & g & b & _ & _ & _ & ->). reflexivity.
Qed.

(** ** The converter *)

(** C2.  When the pattern [rgb(<int>, <int>, <int>)] (white space allowed
    around the parts, a minus sign before each integer) has its leftmost
    match in the input, [rgbToHex] returns a [#] followed, for each of the
    three integers in turn, by the two lowercase hexadecimal digits of the
    integer clamped to the range 0..255. *)
Theorem rgbToHex_clamps_each_channel s before c1 c2 c3 :
  leftmostMatch s before c1 c2 c3 ->
  rgbToHex s =
    lit "#" ++ twoHex (clampByte (tokenValue c1))
    ++ twoHex (clampByte (tokenValue c2))
    ++ twoHex (clampByte (tokenValue c3)).
Proof.
  intros H. pose proof H as (m & _ & Hm & _).
  destruct Hm as (w1 & w2 & w3 & w4 & w5 & w6 & w7 & rest & _ & _ & _ & _ & _
                  & _ & _ & T1 & T2 & T3 & _).
  apply rgbToHex_of_groups; try assumption.
  now apply (rgbMatch_leftmost s before).
Qed.

(** The specification's example: [rgb(-10, 300, 128)] gives [#00ff80]. *)
Lemma rgbToHex_clamps_example :
  rgbToHex (lit "rgb(-10, 300, 128)") = lit "#00ff80".
Proof.
  apply (rgbToHex_clamps_each_channel (lit "rgb(-10, 300, 128)") []
           (lit "-10") (lit "300") (lit "128")).
  exists (lit "rgb(-10, 300, 128)"). split; [reflexivity|]. split.
  - apply matchAt_sound. vm_compute. reflexivity.
  - intros b' m' d1 d2 d3 _ Hlen. simpl in Hlen. lia.
Defined.

(** C3.  When the pattern matches nowhere in the input, [rgbToHex] returns
    [#000000], and the only other effect of the call is one warning that
    quotes the input. *)
Theorem rgbToHex_unparsable_sentinel s :
  ~ matchesSomewhere s ->
  rgbToHex s = lit "#000000"
  /\ fst (rgbToHexLog s) = [lit "Could not parse RGB value: " ++ s].
Proof.
  intros H. apply rgbMatch_none_iff in H.
  unfold rgbToHex, rgbToHexLog. rewrite H. split; reflexivity.
Qed.

(** The specification's example: [not-a-color]. *)
Lemma rgbToHex_unparsable_example :
  rgbToHex (lit "not-a-color") = lit "#000000"
  /\ fst (rgbToHexLog (lit "not-a-color")) =
       [lit "Could not parse RGB value: not-a-color"].
Proof.
  apply (rgbToHex_unparsable_sentinel (lit "not-a-color")).
  apply rgbMatch_none_iff. vm_compute. reflexivity.
Defined.

(** *** The decimal text of a natural number *)

Lemma digitChar_isDigit d : (d < 10)%N -> isDigit (digitChar d) = true.
Proof.
  intros H. unfold digitChar. destruct (N.ltb_spec d 10); [|lia].
  unfold isDigit. apply andb_true_iff. split; apply N.leb_le; lia.
Qed.

Lemma radixDigits_isDigit fuel n :
  forallb isDigit (radixDigits fuel 10 n) = true.
Proof.
  revert n. induction fuel as [|f IH]; intros n; [reflexivity|].
  cbn [radixDigits]. destruct (N.ltb_spec n 10).
  - cbn [forallb]. now rewrite digitChar_isDigit.
  - rewrite forallb_app, IH. cbn [forallb].
    rewrite digitChar_isDigit; [reflexivity|]. apply N.mod_lt. lia.
Qed.

Lemma radixDigits_nonempty fuel radix n : radixDigits (S fuel) radix n <> [].
Proof.
  cbn [radixDigits]. destruct (n <? radix)%N; [discriminate|].
  intros H. apply app_eq_nil in H as [_ H]. discriminate.
Qed.

Lemma digitsValue_snoc acc ds d :
  digitsValue acc (ds ++ [d]) = (10 * digitsValue acc ds + (Z.of_N d - 48))%Z.
Proof.
  revert acc. induction ds as [|x ds IH]; intros acc; cbn [app digitsValue];
    [reflexivity | apply IH].
Qed.

(** With fuel for the binary length of [n], the digits denote [n]. *)
Lemma radixDigits_value fuel n :
  (n < 2 ^ N.of_nat fuel)%N ->
  digitsValue 0 (radixDigits fuel 10 n) = Z.of_N n.
Proof.
  revert n. induction fuel as [|f IH]; intros n Hn.
  - cbn in Hn. assert (n = 0%N) by lia. subst. reflexivity.
  - rewrite Nat2N.inj_succ, N.pow_succ_r' in Hn.
    cbn [radixDigits]. destruct (N.ltb_spec n 10) as [Hlt|Hge].
    + cbn [digitsValue]. unfold digitChar.
      destruct (N.ltb_spec n 10); lia.
    + pose proof (N.div_mod n 10 ltac:(lia)) as Hdm.
      pose proof (N.mod_lt n 10 ltac:(lia)) as Hmod.
      assert (Hq : (n / 10 < 2 ^ N.of_nat f)%N).
      { revert Hn Hdm.
        generalize (2 ^ N.of_nat f)%N, (n / 10)%N, (n mod 10)%N.
        intros P q r Hn Hdm. lia. }
      rewrite digitsValue_snoc, IH by exact Hq.
      unfold digitChar. destruct (N.ltb_spec (n mod 10) 10); lia.
Qed.

Lemma natToString_value n : digitsValue 0 (natToString 10 n) = Z.of_N n.
Proof.
  unfold natToString. apply radixDigits_value.
  rewrite Nat2N.inj_succ, N2Nat.id.
  destruct (N.eq_dec n 0) as [->|Hn]; [reflexivity|].
  apply N.log2_spec. lia.
Qed.

Lemma tokenValue_digits ds : digitRun ds -> tokenValue ds = digitsValue 0 ds.
Proof.
  intros [Hne Hd]. destruct ds as [|d ds]; [congruence|].
  cbn [forallb] in Hd. apply andb_true_iff in Hd as [Hd _].
  unfold tokenValue. now rewrite (digit_not_minus _ Hd).
Qed.

(** The decimal text of a natural number is a run of digits that denotes
    the number. *)
Lemma String_of_token n :
  (0 <= n)%Z -> digitRun (String_of n) /\ tokenValue (String_of n) = n.
Proof.
  intros Hn.
  assert (Hrun : digitRun (String_of n)).
  { unfold String_of, toString. destruct (Z.ltb_spec n 0); [lia|]. split.
    - apply radixDigits_nonempty.
    - apply radixDigits_isDigit. }
  split; [exact Hrun|]. rewrite (tokenValue_digits _ Hrun).
  unfold String_of, toString. destruct (Z.ltb_spec n 0); [lia|].
  rewrite natToString_value. lia.
Qed.

Lemma String_of_isDigit n : (0 <= n)%Z -> forallb isDigit (String_of n) = true.
Proof. intros H. apply (String_of_token n H). Qed.

(** [parseInt] reads the decimal text of a byte back. *)
Lemma String_of_byte v :
  (0 <= v <= 255)%Z ->
  intToken (String_of v) /\ parseInt10 (String_of v) = Some v.
Proof.
  intros Hv. destruct (String_of_token v) as [Hrun Hval]; [lia|].
  split; [now apply tok_plain|].
  rewrite parseInt10_token by (now apply tok_plain). now rewrite Hval.
Qed.

(** The two digits that [hexByte] prints for a byte read back as the
    byte. *)
Lemma hexByte_hexPair v :
  (0 <= v <= 255)%Z ->
  exists hi lo, hexByte (clamp (Some v)) = [hi; lo] /\ hexPair hi lo = Some v.
Proof.
  intros Hv.
  pose (check := fun v =>
    match hexByte (clamp (Some v)) with
    | [hi; lo] => match hexPair hi lo with
                  | Some z => Z.eqb z v
                  | None => false
                  end
    | _ => false
    end).
  assert (H : check v = true)
    by (apply byte_cases; [vm_compute; reflexivity | exact Hv]).
  unfold check in H.
  destruct (hexByte (clamp (Some v))) as [|hi [|lo [|x t]]]; try discriminate.
  exists hi, lo. split; [reflexivity|].
  destruct (hexPair hi lo) as [z|]; [|discriminate].
  apply Z.eqb_eq in H. now subst.
Qed.

Lemma rgbText_matches r g b :
  (0 <= r <= 255)%Z -> (0 <= g <= 255)%Z -> (0 <= b <= 255)%Z ->
  matchesAt (rgbText r g b) (String_of r) (String_of g) (String_of b).
Proof.
  intros Hr Hg Hb.
  exists [], [], [], [32%N], [], [32%N], [], [].
  repeat (split; [reflexivity|]).
  split; [apply (String_of_byte r Hr)|].
  split; [apply (String_of_byte g Hg)|].
  split; [apply (String_of_byte b Hb)|].
  reflexivity.
Qed.

(** C1.  For channel values [r], [g], [b] from 0 to 255, the text that
    [rgbToHex] returns for [rgb(r, g, b)] reads back, two hexadecimal
    digits per channel, as [r], [g] and [b]. *)
Theorem rgbToHex_round_trip r g b :
  (0 <= r <= 255)%Z -> (0 <= g <= 255)%Z -> (0 <= b <= 255)%Z ->
  hexChannels (rgbToHex (rgbText r g b)) = Some (r, g, b).
Proof.
  intros Hr Hg Hb.
  assert (Hm : rgbMatch (rgbText r g b)
               = Some (String_of r, String_of g, String_of b)).
  { apply (rgbMatch_leftmost _ []). exists (rgbText r g b).
    split; [reflexivity|]. split; [now apply rgbText_matches|].
    intros b' m' d1 d2 d3 _ Hlen. simpl in Hlen. lia. }
  unfold rgbToHex. rewrite (rgbToHexLog_groups _ _ _ _ Hm). cbn [snd].
  rewrite (proj2 (String_of_byte r Hr)), (proj2 (String_of_byte g Hg)),
    (proj2 (String_of_byte b Hb)).
  destruct (hexByte_hexPair r Hr) as (r1 & r2 & -> & Pr).
  destruct (hexByte_hexPair g Hg) as (g1 & g2 & -> & Pg).
  destruct (hexByte_hexPair b Hb) as (b1 & b2 & -> & Pb).
  cbn [lit List.map list_ascii_of_string app hexChannels].
  change (N.eqb (N_of_ascii "#") 35) with true. cbn iota.
  rewrite Pr, Pg, Pb. reflexivity.
Qed.

(** The documented example of the source: [rgb(255, 128, 64)]. *)
Lemma rgbToHex_round_trip_example :
  hexChannels (rgbToHex (lit "rgb(255, 128, 64)")) = Some (255, 128, 64)%Z.
Proof.
  apply (rgbToHex_round_trip 255 128 64); lia.
Defined.

(** ** The row scanner of [parseCSV] *)

Lemma scanFrom_app st a b : scanFrom st (a ++ b) = scanFrom (scanFrom st a) b.
Proof. apply fold_left_app. Qed.

Lemma scanFrom_cons st c t : scanFrom st (c :: t) = scanFrom (scanChar st c) t.
Proof. reflexivity. Qed.

Lemma scanChar_quote st :
  scanChar st dquote = Scan (values st) (current st) (negb (inQuotes st)).
Proof. reflexivity. Qed.

Lemma scanChar_comma vs cur :
  scanChar (Scan vs cur false) comma = Scan (vs ++ [trim cur]) [] false.
Proof. reflexivity. Qed.

Lemma scanChar_other st c :
  N.eqb c dquote = false ->
  (N.eqb c comma && negb (inQuotes st))%bool = false ->
  scanChar st c = Scan (values st) (current st ++ [c]) (inQuotes st).
Proof. intros H1 H2. unfold scanChar. now rewrite H1, H2. Qed.

(** Outside quotes, a text without comma or quote is appended to
    [current]. *)
Lemma scan_plain t vs cur :
  includes comma t = false -> includes dquote t = false ->
  scanFrom (Scan vs cur false) t = Scan vs (cur ++ t) false.
Proof.
  revert cur. induction t as [|c t IH]; intros cur Hc Hq.
  - simpl. now rewrite app_nil_r.
  - rewrite includes_cons in Hc, Hq.
    apply orb_false_iff in Hc as [Hc Hc'], Hq as [Hq Hq'].
    rewrite N.eqb_sym in Hc, Hq.
    rewrite scanFrom_cons, scanChar_other by (simpl; now rewrite ?Hc, ?Hq).
    simpl values; simpl current; simpl inQuotes.
    rewrite IH by assumption. now rewrite <- app_assoc.
Qed.

(** Inside quotes, a text without quote is appended to [current], commas
    included. *)
Lemma scan_quoted t vs cur :
  includes dquote t = false ->
  scanFrom (Scan vs cur true) t = Scan vs (cur ++ t) true.
Proof.
  revert cur. induction t as [|c t IH]; intros cur Hq.
  - simpl. now rewrite app_nil_r.
  - rewrite includes_cons in Hq. apply orb_false_iff in Hq as [Hq Hq'].
    rewrite N.eqb_sym in Hq.
    rewrite scanFrom_cons, scanChar_other by (simpl; now rewrite ?Hq, ?andb_false_r).
    simpl values; simpl current; simpl inQuotes.
    rewrite IH by assumption. now rewrite <- app_assoc.
Qed.

Lemma scan_cell c vs cur :
  cellOk c = true ->
  scanFrom (Scan vs cur false) (cellSource c) = Scan vs (cur ++ cellText c) false.
Proof.
  destruct c as [t|t]; cbn [cellSource cellText cellOk app]; intros H.
  - apply andb_true_iff in H as [H1 H2].
    apply negb_true_iff in H1, H2. now apply scan_plain.
  - apply negb_true_iff in H.
    rewrite scanFrom_cons, scanChar_quote. simpl values; simpl current; simpl negb.
    rewrite scanFrom_app, scan_quoted by assumption.
    rewrite scanFrom_cons, scanChar_quote. reflexivity.
Qed.

Lemma scan_row c cells vs :
  forallb cellOk (c :: cells) = true ->
  let st := scanFrom (Scan vs [] false) (rowSource (c :: cells)) in
  values st ++ [trim (current st)]
  = vs ++ List.map (fun c => trim (cellText c)) (c :: cells).
Proof.
  revert c vs. induction cells as [|c' cells IH]; intros c vs H.
  - simpl in H. rewrite andb_true_r in H.
    unfold rowSource; simpl. rewrite scan_cell by assumption. reflexivity.
  - change (forallb cellOk (c :: c' :: cells))
      with (cellOk c && forallb cellOk (c' :: cells))%bool in H.
    apply andb_true_iff in H as [Hc H].
    change (rowSource (c :: c' :: cells))
      with (cellSource c ++ comma :: rowSource (c' :: cells)).
    cbv zeta. rewrite scanFrom_app, scan_cell by assumption.
    rewrite scanFrom_cons, app_nil_l, scanChar_comma.
    pose proof (IH c' (vs ++ [trim (cellText c)]) H) as IH'. cbv zeta in IH'.
    rewrite IH'. rewrite <- app_assoc. reflexivity.
Qed.

(** A row of plain and quoted cells yields one value per cell: the text of
    the cell, commas of quoted cells included, trimmed. *)
Lemma rowValues_cells cells :
  cells <> [] -> forallb cellOk cells = true ->
  rowValues (rowSource cells) = List.map (fun c => trim (cellText c)) cells.
Proof.
  intros Hne H. destruct cells as [|c cells]; [congruence|].
  apply (scan_row c cells [] H).
Qed.

(** No value of a row contains a double quote. *)

Lemma scanChar_quoteFree st c :
  Forall quoteFree (values st) -> quoteFree (current st) ->
  Forall quoteFree (values (scanChar st c)) /\ quoteFree (current (scanChar st c)).
Proof.
  intros Hv Hc. unfold scanChar.
  destruct (N.eqb c dquote) eqn:Eq; [now split|].
  destruct (N.eqb c comma && negb (inQuotes st))%bool; simpl.
  - split; [|intros []]. apply Forall_app. split; [exact Hv|].
    constructor; [|constructor]. intros H. apply In_trim in H. now apply Hc.
  - split; [exact Hv|]. intros H. apply in_app_or in H as [H|[H|[]]].
    + now apply Hc.
    + subst c. now rewrite N.eqb_refl in Eq.
Qed.

Lemma scanFrom_quoteFree text st :
  Forall quoteFree (values st) -> quoteFree (current st) ->
  Forall quoteFree (values (scanFrom st text))
  /\ quoteFree (current (scanFrom st text)).
Proof.
  revert st. induction text as [|c t IH]; intros st Hv Hc; simpl; [now split|].
  destruct (scanChar_quoteFree st c Hv Hc) as [Hv' Hc']. now apply IH.
Qed.

Lemma rowValues_quoteFree line : Forall quoteFree (rowValues line).
Proof.
  unfold rowValues.
  destruct (scanFrom_quoteFree line (Scan [] [] false)) as [Hv Hc];
    [constructor | intros [] |].
  apply Forall_app. split; [exact Hv|]. constructor; [|constructor].
  intros H. apply In_trim in H. now apply Hc.
Qed.

Lemma valueOrEmpty_quoteFree vs i :
  Forall quoteFree vs -> quoteFree (valueOrEmpty vs i).
Proof.
  intros H. unfold valueOrEmpty.
  destruct (nth_error vs i) as [v|] eqn:E; [|intros []].
  rewrite Forall_forall in H. apply H. eapply nth_error_In; eassumption.
Qed.

Lemma put_quoteFree key value o :
  quoteFree value -> valuesQuoteFree o -> valuesQuoteFree (put key value o).
Proof.
  intros Hv. induction o as [|[k v] o IH]; intros Ho; simpl.
  - constructor; [exact Hv | constructor].
  - inversion Ho; subst. destruct (str_eqb k key).
    + constructor; assumption.
    + constructor; [assumption | now apply IH].
Qed.

Lemma fillObject_quoteFree headers i vs o :
  Forall quoteFree vs -> valuesQuoteFree o ->
  valuesQuoteFree (fillObject headers i vs o).
Proof.
  intros Hvs. revert i o. induction headers as [|h hs IH]; intros i o Ho; simpl.
  - exact Ho.
  - apply IH. unfold assign. destruct (str_eqb h (lit "__proto__")); [exact Ho|].
    apply put_quoteFree; [now apply valueOrEmpty_quoteFree | exact Ho].
Qed.

Lemma get_In key o v : get key o = Some v -> In (key, v) o.
Proof.
  induction o as [|[k w] o IH]; simpl; [discriminate|].
  destruct (str_eqb k key) eqn:E.
  - intros H; inversion H; subst. apply str_eqb_eq in E; subst. now left.
  - intros H. right. now apply IH.
Qed.

(** C10.  No value of an object that [parseCSV] returns contains a double
    quote: the scanner uses every quote of a row to switch [inQuotes] and
    appends none to a value. *)
Theorem parseCSV_values_have_no_quote csv obj key v :
  In obj (parseCSV csv) -> get key obj = Some v -> ~ In dquote v.
Proof.
  unfold parseCSV. intros Hobj Hget.
  apply in_map_iff in Hobj as (line & <- & _).
  assert (H : valuesQuoteFree
                (parseRow (headerNames (hd [] (split linefeed (trim csv)))) line)).
  { apply fillObject_quoteFree; [apply rowValues_quoteFree | constructor]. }
  unfold valuesQuoteFree in H. rewrite Forall_forall in H.
  apply (H (key, v)). now apply get_In.
Qed.

(** A row whose first field holds doubled quotes: both quotes of each pair
    are dropped. *)
Lemma parseCSV_values_have_no_quote_example :
  get (lit "name")
      (parseRow [lit "name"; lit "color"]
         (lit "say " ++ [dquote; dquote] ++ lit "hi" ++ [dquote; dquote]
          ++ lit "," ++ q "rgb(1, 2, 3)"))
  = Some (lit "say hi")
  /\ ~ In dquote (lit "say hi").
Proof.
  split; [vm_compute; reflexivity|].
  apply (parseCSV_values_have_no_quote
           (lit "name,color" ++ [linefeed]
            ++ lit "say " ++ [dquote; dquote] ++ lit "hi" ++ [dquote; dquote]
            ++ lit "," ++ q "rgb(1, 2, 3)")
           [(lit "name", lit "say hi"); (lit "color", lit "rgb(1, 2, 3)")]
           (lit "name") (lit "say hi")).
  - vm_compute. left. reflexivity.
  - vm_compute. reflexivity.
Defined.

Lemma splitUnquoted_cons inq line :
  exists h r, splitUnquoted inq line = h :: r.
Proof.
  revert inq. induction line as [|c t IH]; intros inq; [now exists [], []|].
  cbn [splitUnquoted].
  assert (Hcons : forall b, exists h r, consHead c (splitUnquoted b t) = h :: r).
  { intros b. destruct (IH b) as (h & r & ->). now exists (c :: h), r. }
  destruct (N.eqb c dquote); [apply Hcons|].
  destruct (N.eqb c comma && negb inq)%bool; [|apply Hcons].
  now exists [], (splitUnquoted inq t).
Qed.

(** The pieces joined with commas give the line back. *)
Lemma join_splitUnquoted inq line :
  join [comma] (splitUnquoted inq line) = line.
Proof.
  revert inq. induction line as [|c t IH]; intros inq; [reflexivity|].
  cbn [splitUnquoted].
  assert (Hcons : forall b, join [comma] (consHead c (splitUnquoted b t)) = c :: t).
  { intros b. specialize (IH b).
    destruct (splitUnquoted_cons b t) as (h & r & E). rewrite E in *.
    cbn [consHead]. destruct r as [|h' r]; cbn [join app] in *; now rewrite IH. }
  destruct (N.eqb c dquote); [apply Hcons|].
  destruct (N.eqb c comma && negb inq)%bool eqn:Ec; [|apply Hcons].
  apply andb_true_iff in Ec as [Ec _]. apply N.eqb_eq in Ec. subst c.
  specialize (IH inq).
  destruct (splitUnquoted_cons inq t) as (h & r & E). rewrite E in *.
  change (join [comma] ([] :: h :: r)) with ([] ++ [comma] ++ join [comma] (h :: r)).
  now rewrite IH.
Qed.

(** From any state, the scanner yields the pieces between the commas
    outside quotes, each without its quotes and trimmed; the first piece
    continues [current]. *)
Lemma scan_splitUnquoted t vs cur inq :
  exists h r,
    splitUnquoted inq t = h :: r
    /\ values (scanFrom (Scan vs cur inq) t)
       ++ [trim (current (scanFrom (Scan vs cur inq) t))]
       = vs ++ trim (cur ++ withoutQuotes h)
            :: List.map (fun piece => trim (withoutQuotes piece)) r.
Proof.
  revert vs cur inq. induction t as [|c t IH]; intros vs cur inq.
  - exists [], []. split; [reflexivity|]. cbn. now rewrite app_nil_r.
  - rewrite scanFrom_cons. cbn [splitUnquoted].
    destruct (N.eqb c dquote) eqn:Eq.
    + apply N.eqb_eq in Eq. subst c. rewrite scanChar_quote.
      cbn [values current inQuotes].
      destruct (IH vs cur (negb inq)) as (h & r & Es & Hscan).
      exists (dquote :: h), r. rewrite Es. split; [reflexivity|].
      rewrite Hscan. reflexivity.
    + destruct (N.eqb c comma && negb inq)%bool eqn:Ec.
      * apply andb_true_iff in Ec as [Ec Ei]. apply N.eqb_eq in Ec. subst c.
        apply negb_true_iff in Ei. subst inq. rewrite scanChar_comma.
        destruct (IH (vs ++ [trim cur]) [] false) as (h & r & Es & Hscan).
        exists [], (h :: r). rewrite Es. split; [reflexivity|].
        rewrite Hscan, <- app_assoc. cbn [app List.map withoutQuotes filter].
        now rewrite app_nil_r.
      * rewrite scanChar_other by assumption. cbn [values current inQuotes].
        destruct (IH vs (cur ++ [c]) inq) as (h & r & Es & Hscan).
        exists (c :: h), r. rewrite Es. split; [reflexivity|].
        rewrite Hscan, <- app_assoc.
        replace (withoutQuotes (c :: h)) with (c :: withoutQuotes h)
          by (unfold withoutQuotes; cbn [filter]; now rewrite Eq).
        reflexivity.
Qed.

(** The values of any row are the pieces of the line between its commas
    outside quotes, each without its quotes and trimmed. *)
Lemma rowValues_splitUnquoted line :
  rowValues line
  = List.map (fun piece => trim (withoutQuotes piece)) (splitUnquoted false line).
Proof.
  unfold rowValues. fold (scanFrom (Scan [] [] false) line).
  destruct (scan_splitUnquoted line [] [] false) as (h & r & -> & ->).
  reflexivity.
Qed.

(** C4.  In a text whose trimmed form has the header line [header] and
    the data lines [lines], every data line, whatever it holds, yields
    exactly one value per piece of the line between its commas outside
    quotes (every double quote switches between inside and outside): the
    value is the piece, commas inside quotes kept as text, without the
    quotes and trimmed.  The object of the row pairs the header names with
    these values.  In particular a line made of plain cells and of quoted
    cells that hold commas yields the texts of its cells. *)
Theorem parseCSV_quoted_field_keeps_commas csv header lines i line :
  split linefeed (trim csv) = header :: lines ->
  nth_error lines i = Some line ->
  let pieces := splitUnquoted false line in
  let value := fun piece => trim (withoutQuotes piece) in
  join [comma] pieces = line
  /\ rowValues line = List.map value pieces
  /\ List.length (rowValues line) = List.length pieces
  /\ nth_error (parseCSV csv) i
     = Some (fillObject (headerNames header) 0 (List.map value pieces) [])
  /\ forall cells,
       line = rowSource cells -> cells <> [] -> forallb cellOk cells = true ->
       rowValues line = List.map (fun c => trim (cellText c)) cells
       /\ List.length (rowValues line) = List.length cells.
Proof.
  intros Hsplit Hline. cbv zeta.
  pose proof (rowValues_splitUnquoted line) as Hrow.
  split; [apply join_splitUnquoted|]. split; [exact Hrow|]. split; [|split].
  - rewrite Hrow. apply length_map.
  - unfold parseCSV. rewrite Hsplit. cbn [hd tl].
    rewrite nth_error_map, Hline. cbn [option_map].
    unfold parseRow. now rewrite Hrow.
  - intros cells -> Hne Hok.
    pose proof (rowValues_cells cells Hne Hok) as Hcells.
    split; [exact Hcells|]. rewrite Hcells. apply length_map.
Qed.

(** The specification's example row, the same row with white space
    around the quotes, and a row with doubled quotes inside a quoted name:
    three, three and two values. *)
Lemma parseCSV_quoted_field_example :
  (rowValues exampleRow = [lit "Language X"; lit "rgb(1, 2, 3)"; lit "0.5"]
   /\ List.length (rowValues exampleRow) = 3
   /\ nth_error (parseCSV exampleCsv) 0
      = Some [(lit "lang", lit "Language X");
              (lit "avgColorRGBCode", lit "rgb(1, 2, 3)");
              (lit "totalColorFraction", lit "0.5")])
  /\ (rowValues spacedRow = [lit "Language X"; lit "rgb(1, 2, 3)"; lit "0.5"]
      /\ nth_error (parseCSV exampleCsv) 1
         = Some [(lit "lang", lit "Language X");
                 (lit "avgColorRGBCode", lit "rgb(1, 2, 3)");
                 (lit "totalColorFraction", lit "0.5")])
  /\ (rowValues doubledRow = [lit "a b, c"; lit "#010203"]
      /\ nth_error (parseCSV exampleCsv) 2
         = Some [(lit "lang", lit "a b, c");
                 (lit "avgColorRGBCode", lit "#010203");
                 (lit "totalColorFraction", [])]).
Proof.
  split; [|split].
  - destruct (parseCSV_quoted_field_keeps_commas exampleCsv exampleHeader
                [exampleRow; spacedRow; doubledRow] 0 exampleRow
                eq_refl eq_refl)
      as (_ & Hrow & Hlen & Hobj & _).
    split; [exact Hrow|]. split; [exact Hlen | exact Hobj].
  - destruct (parseCSV_quoted_field_keeps_commas exampleCsv exampleHeader
                [exampleRow; spacedRow; doubledRow] 1 spacedRow
                eq_refl eq_refl)
      as (_ & Hrow & _ & Hobj & _).
    split; [exact Hrow | exact Hobj].
  - destruct (parseCSV_quoted_field_keeps_commas exampleCsv exampleHeader
                [exampleRow; spacedRow; doubledRow] 2 doubledRow
                eq_refl eq_refl)
      as (_ & Hrow & _ & Hobj & _).
    split; [exact Hrow | exact Hobj].
Defined.

(** ** The header line *)

(** Without a quote in the line, splitting at the commas outside quotes
    is splitting at every comma. *)
Lemma splitUnquoted_no_quote line :
  includes dquote line = false -> splitUnquoted false line = split comma line.
Proof.
  induction line as [|c t IH]; intros H; [reflexivity|].
  rewrite includes_cons in H. apply orb_false_iff in H as [Hq H].
  rewrite N.eqb_sym in Hq. cbn [splitUnquoted split]. rewrite Hq.
  cbn [negb]. rewrite andb_true_r, IH by assumption.
  destruct (N.eqb c comma); reflexivity.
Qed.

(** On a header line without a double quote the names that [parseCSV]
    takes are those of the split at unquoted commas. *)
Lemma headerNames_without_quotes line :
  includes dquote line = false -> headerNames line = headerNames_spec line.
Proof.
  intros H. unfold headerNames, headerNames_spec.
  now rewrite splitUnquoted_no_quote.
Qed.

(** C5.  A header line with a quoted name that holds a comma: the code
    splits inside the quotes and keeps the quote characters in the names
    (three names), where the split at unquoted commas gives two names and
    the scanner of the data rows gives two values. *)
Theorem headerNames_splits_inside_quotes :
  headerNames (q "a,b" ++ lit ",c")
  = [[dquote] ++ lit "a"; lit "b" ++ [dquote]; lit "c"]
  /\ headerNames_spec (q "a,b" ++ lit ",c") = [q "a,b"; lit "c"]
  /\ rowValues (q "x,y" ++ lit ",z") = [lit "x,y"; lit "z"]
  /\ parseCSV (q "a,b" ++ lit ",c" ++ [linefeed] ++ q "x,y" ++ lit ",z")
     = [[([dquote] ++ lit "a", lit "x,y"); (lit "b" ++ [dquote], lit "z");
         (lit "c", [])]].
Proof. repeat split; vm_compute; reflexivity. Qed.

(** ** Grouping by language *)

Lemma mem_firstSeen k ks :
  existsb (str_eqb k) (firstSeen ks) = existsb (str_eqb k) ks.
Proof.
  induction ks as [|a ks IH]; [reflexivity|]. cbn [firstSeen existsb].
  destruct (str_eqb k a) eqn:E; [reflexivity|]. cbn [orb]. rewrite <- IH.
  generalize (firstSeen ks). intros l. induction l as [|x l IHl]; [reflexivity|].
  cbn [filter existsb]. destruct (str_eqb a x) eqn:Eax; cbn [negb existsb].
  - rewrite IHl. apply str_eqb_eq in Eax; subst x. now rewrite E.
  - now rewrite IHl.
Qed.

Lemma NoDup_firstSeen ks : NoDup (firstSeen ks).
Proof.
  induction ks as [|a ks IH]; cbn [firstSeen]; constructor.
  - intros H. apply filter_In in H as [_ H]. now rewrite str_eqb_refl in H.
  - now apply NoDup_filter.
Qed.

Lemma firstSeen_snoc ks k :
  firstSeen (ks ++ [k])
  = if existsb (str_eqb k) ks then firstSeen ks else firstSeen ks ++ [k].
Proof.
  induction ks as [|a ks IH]; [reflexivity|].
  cbn [app firstSeen existsb]. rewrite IH.
  destruct (existsb (str_eqb k) ks) eqn:Ek.
  - now rewrite orb_true_r.
  - rewrite orb_false_r, filter_app. cbn [filter].
    rewrite (str_eqb_sym a k).
    destruct (str_eqb k a); cbn [negb]; [now rewrite app_nil_r | reflexivity].
Qed.

Lemma map_has_groups seen key ks :
  map_has key (List.map (groupOf seen) ks) = existsb (str_eqb key) ks.
Proof.
  induction ks as [|a ks IH]; [reflexivity|].
  cbn [List.map groupOf map_has existsb]. now rewrite IH, (str_eqb_sym a key).
Qed.

Lemma map_set_new seen key ks :
  existsb (str_eqb key) ks = false ->
  map_set key [] (List.map (groupOf seen) ks)
  = List.map (groupOf seen) ks ++ [(key, [])].
Proof.
  induction ks as [|a ks IH]; intros H; [reflexivity|].
  cbn [existsb] in H. apply orb_false_iff in H as [Ha H].
  cbn [List.map groupOf map_set app]. rewrite (str_eqb_sym a key), Ha.
  now rewrite IH.
Qed.

Lemma filter_keyIs_absent key seen :
  existsb (str_eqb key) (keysOf seen) = false -> filter (keyIs key) seen = [].
Proof.
  induction seen as [|c seen IH]; intros H; [reflexivity|].
  cbn [keysOf List.map existsb] in H. apply orb_false_iff in H as [Hc H].
  cbn [filter]. unfold keyIs at 1. rewrite (str_eqb_sym _ key), Hc.
  now apply IH.
Qed.

Lemma filter_keyIs_snoc key seen color :
  filter (keyIs key) (seen ++ [color])
  = filter (keyIs key) seen ++ (if keyIs key color then [color] else []).
Proof. rewrite filter_app. reflexivity. Qed.

Lemma groupOf_other seen color key :
  keyIs key color = false -> groupOf (seen ++ [color]) key = groupOf seen key.
Proof.
  intros H. unfold groupOf. now rewrite filter_keyIs_snoc, H, app_nil_r.
Qed.

(** Pushing a record extends the group of its key and no other. *)
Lemma map_push_groups seen color ks :
  NoDup ks ->
  map_push (languageKey color) color (List.map (groupOf seen) ks)
  = List.map (groupOf (seen ++ [color])) ks.
Proof.
  induction ks as [|a ks IH]; intros Hnd; [reflexivity|].
  inversion Hnd as [|? ? Ha Hks]; subst.
  cbn [List.map map_push]. unfold groupOf at 1.
  destruct (str_eqb a (languageKey color)) eqn:E.
  - apply str_eqb_eq in E. subst a. f_equal.
    + unfold groupOf. rewrite filter_keyIs_snoc. unfold keyIs at 3.
      now rewrite str_eqb_refl.
    + apply map_ext_in. intros k Hk. symmetry. apply groupOf_other.
      unfold keyIs. apply str_eqb_neq. intros Ek. apply Ha. now rewrite Ek.
  - f_equal.
    + symmetry. apply groupOf_other. unfold keyIs. now rewrite str_eqb_sym.
    + now apply IH.
Qed.

Lemma keysOf_snoc seen color :
  keysOf (seen ++ [color]) = keysOf seen ++ [languageKey color].
Proof. unfold keysOf. now rewrite map_app. Qed.

Lemma groupStep_groups seen color :
  groupStep (List.map (groupOf seen) (firstSeen (keysOf seen))) color
  = List.map (groupOf (seen ++ [color])) (firstSeen (keysOf (seen ++ [color]))).
Proof.
  unfold groupStep. cbv zeta. rewrite map_has_groups, mem_firstSeen.
  rewrite keysOf_snoc.
  pose proof (firstSeen_snoc (keysOf seen) (languageKey color)) as Hsnoc.
  destruct (existsb (str_eqb (languageKey color)) (keysOf seen)) eqn:E; cbn [negb].
  - rewrite Hsnoc. apply map_push_groups, NoDup_firstSeen.
  - rewrite map_set_new by (now rewrite mem_firstSeen).
    replace [(languageKey color, @nil ColorInfo)]
      with (List.map (groupOf seen) [languageKey color])
      by (cbn [List.map]; unfold groupOf;
          now rewrite (filter_keyIs_absent _ _ E)).
    rewrite <- (map_app (groupOf seen) (firstSeen (keysOf seen)) [languageKey color]).
    rewrite <- Hsnoc. apply map_push_groups, NoDup_firstSeen.
Qed.

Lemma fold_groupStep_groups colors seen :
  fold_left groupStep colors
    (List.map (groupOf seen) (firstSeen (keysOf seen)))
  = List.map (groupOf (seen ++ colors)) (firstSeen (keysOf (seen ++ colors))).
Proof.
  revert seen. induction colors as [|c colors IH]; intros seen.
  - now rewrite app_nil_r.
  - cbn [fold_left]. rewrite groupStep_groups, IH, <- app_assoc. reflexivity.
Qed.

(** C6.  [groupByLanguage] returns one group per distinct key, in the
    order in which the keys first appear; the key of a record is its
    [lang_abv] when that is not empty and its [lang] otherwise; the group
    of a key holds exactly the records with that key, in their order in the
    input. *)
Theorem groupByLanguage_partitions colors :
  groupByLanguage colors
  = List.map (fun key => (key, filter (keyIs key) colors))
      (firstSeen (List.map languageKey colors))
  /\ forall color,
       languageKey color
       = match lang_abv color with [] => lang color | _ :: _ => lang_abv color end.
Proof.
  split.
  - unfold groupByLanguage.
    exact (fold_groupStep_groups colors []).
  - intros color. unfold languageKey, orElse. reflexivity.
Qed.

(** The specification's example: records of the languages en, fr, en, the
    second en record without a short code. *)

Example groupByLanguage_en_fr_en :
  groupByLanguage [enRecord "red"; frRecord "rouge"; enRecord "blue";
                   bareRecord "rot"]
  = [(lit "en", [enRecord "red"; enRecord "blue"]);
     (lit "fr", [frRecord "rouge"]);
     (lit "German", [bareRecord "rot"])].
Proof. vm_compute. reflexivity. Qed.

(** ** The CSV and JSON emitters *)

Lemma fold_left_snoc {A B} (f : A -> B) (l : list A) (acc : list B) :
  fold_left (fun lines x => lines ++ [f x]) l acc = acc ++ List.map f l.
Proof.
  revert acc. induction l as [|x l IH]; intros acc; simpl.
  - now rewrite app_nil_r.
  - rewrite IH, <- app_assoc. reflexivity.
Qed.

Lemma csvLines_map colors :
  csvLines colors = lit "name,hex" :: List.map csvLine colors.
Proof. unfold csvLines. now rewrite fold_left_snoc. Qed.

(** Reading a quoted name back: the doubled quotes become single again and
    the reader stops at the closing quote. *)
Lemma unquote_escaped n rest :
  stops (fun c => N.eqb c dquote) rest ->
  unquote (replaceChar dquote [dquote; dquote] n ++ dquote :: rest)
  = Some (n, rest).
Proof.
  intros Hrest. induction n as [|c n IH].
  - cbn [replaceChar flat_map app unquote]. rewrite N.eqb_refl.
    destruct rest as [|d rest]; [reflexivity|]. simpl in Hrest. now rewrite Hrest.
  - unfold replaceChar in *. cbn [flat_map].
    destruct (N.eqb c dquote) eqn:E.
    + apply N.eqb_eq in E; subst c. cbn [app unquote].
      rewrite !N.eqb_refl, IH. reflexivity.
    + cbn [app unquote]. rewrite E, IH. reflexivity.
Qed.

(** A line of the emitted CSV reads back as the name and the colour it
    was made from. *)
Lemma readCsvLine_escapeName n h :
  readCsvLine (escapeName n ++ [comma] ++ h) = Some (MkEntry n h).
Proof.
  unfold escapeName.
  destruct (includes comma n || includes dquote n)%bool eqn:E.
  - cbn [app readCsvLine]. rewrite N.eqb_refl, <- app_assoc.
    cbn [app]. rewrite unquote_escaped by reflexivity.
    cbn [bind]. now rewrite N.eqb_refl.
  - apply orb_false_iff in E as [Hc Hq].
    assert (Hn : forallb notComma n = true).
    { apply forallb_forall. intros x Hx. unfold notComma.
      apply negb_true_iff, N.eqb_neq. intros ->.
      apply (proj1 (includes_false comma n) Hc Hx). }
    assert (Hstop : stops notComma ([comma] ++ h)) by reflexivity.
    assert (Hrd :
      match dropWhile notComma (n ++ [comma] ++ h) with
      | _ :: h' => Some (MkEntry (takeWhile notComma (n ++ [comma] ++ h)) h')
      | [] => None
      end = Some (MkEntry n h)).
    { now rewrite dropWhile_app, takeWhile_app. }
    destruct n as [|c n]; [exact Hrd|].
    rewrite includes_cons in Hq. apply orb_false_iff in Hq as [Hq _].
    rewrite N.eqb_sym in Hq.
    change ((c :: n) ++ [comma] ++ h) with (c :: (n ++ [comma] ++ h)) in *.
    unfold readCsvLine. rewrite Hq. exact Hrd.
Qed.

(** A name with a comma and a quote goes through both emitters. *)
Example csv_and_json_quoted_name :
  let color := MkColorInfo (lit "English") (lit "en") []
                 (lit "sea, " ++ q "deep" ++ lit " blue") (lit "rgb(0, 0, 128)")
                 [] [] [] [] in
  csvLine color
  = [dquote] ++ lit "sea, " ++ [dquote; dquote] ++ lit "deep"
    ++ [dquote; dquote] ++ lit " blue" ++ [dquote] ++ lit ",#000080"
  /\ readCsvLine (csvLine color)
     = Some (MkEntry (lit "sea, " ++ q "deep" ++ lit " blue") (lit "#000080")).
Proof. split; vm_compute; reflexivity. Qed.

(** ** The SVG emitter *)

Lemma template_parts :
  SVG_TEMPLATE
  = svgHead ++ lit "{height}" ++ svgBody ++ lit "{height}" ++ svgBeforeItems
    ++ lit "{items}" ++ svgClose.
Proof. vm_compute. reflexivity. Qed.

Lemma clash_afterPrefix pat u rest :
  clash pat u = true -> afterPrefix pat (u ++ rest) = None.
Proof.
  revert u. induction pat as [|p pat IH]; intros [|c u]; simpl; try discriminate.
  destruct (N.eqb p c); [apply IH | reflexivity].
Qed.

Lemma afterPrefix_app pat rest : afterPrefix pat (pat ++ rest) = Some rest.
Proof.
  induction pat as [|p pat IH]; simpl; [now destruct rest|].
  now rewrite N.eqb_refl.
Qed.

(** The scan copies a text in which no match can start. *)
Lemma replaceFrom_clean pat rep t before rest :
  clean pat t = true ->
  replaceFrom pat rep before 0 (t ++ rest)
  = t ++ replaceFrom pat rep (before ++ t) 0 rest.
Proof.
  revert before. induction t as [|c t IH]; intros before H.
  - now rewrite app_nil_r.
  - cbn [clean] in H. apply andb_true_iff in H as [Hc Ht].
    change ((c :: t) ++ rest) with (c :: (t ++ rest)). cbn [replaceFrom].
    change (c :: (t ++ rest)) with ((c :: t) ++ rest).
    rewrite (clash_afterPrefix _ _ rest Hc), IH by assumption.
    now rewrite <- app_assoc.
Qed.

Lemma replaceFrom_skip pat rep u before rest :
  replaceFrom pat rep before (List.length u) (u ++ rest)
  = replaceFrom pat rep (before ++ u) 0 rest.
Proof.
  revert before. induction u as [|c u IH]; intros before.
  - now rewrite app_nil_r.
  - cbn [List.length app replaceFrom]. rewrite IH, <- app_assoc. reflexivity.
Qed.

(** At a match the scan emits the substitution and goes on after it. *)
Lemma replaceFrom_match pat rep before rest :
  pat <> [] ->
  replaceFrom pat rep before 0 (pat ++ rest)
  = substitution pat before rest rep
    ++ replaceFrom pat rep (before ++ pat) 0 rest.
Proof.
  intros Hne. destruct pat as [|p pat]; [congruence|].
  change ((p :: pat) ++ rest) with (p :: (pat ++ rest)). cbn [replaceFrom].
  change (p :: (pat ++ rest)) with ((p :: pat) ++ rest).
  rewrite afterPrefix_app.
  replace (List.length (p :: pat) - 1) with (List.length pat)
    by (cbn [List.length]; lia).
  rewrite replaceFrom_skip, <- app_assoc. reflexivity.
Qed.

Lemma substitution_plain matched before after rep :
  includes dollar rep = false ->
  substitution matched before after rep = rep.
Proof.
  induction rep as [|c rep IH]; intros H; [reflexivity|].
  rewrite includes_cons in H. apply orb_false_iff in H as [Hc H].
  cbn [substitution]. rewrite N.eqb_sym, Hc. now rewrite IH.
Qed.

Lemma clean_first_absent p pat t :
  includes p t = false -> clean (p :: pat) t = true.
Proof.
  induction t as [|c t IH]; intros H; [reflexivity|].
  rewrite includes_cons in H. apply orb_false_iff in H as [Hc H].
  cbn [clean clash]. rewrite Hc. now apply IH.
Qed.

(** ** The two [replace] calls of [generateSVG] on the template *)

Lemma replaceFrom_clean_end pat rep t before :
  clean pat t = true -> replaceFrom pat rep before 0 t = t.
Proof.
  intros H. rewrite <- (app_nil_r t) at 1.
  rewrite replaceFrom_clean by assumption. cbn [replaceFrom]. apply app_nil_r.
Qed.

Lemma replace_height h :
  forallb isDigit h = true ->
  replaceAll (lit "{height}") h SVG_TEMPLATE
  = svgHead ++ h ++ svgBody ++ h ++ svgBeforeItems ++ lit "{items}" ++ svgClose.
Proof.
  intros Hh.
  assert (Hd : includes dollar h = false) by (now apply (class_excludes isDigit)).
  rewrite template_parts. unfold replaceAll.
  rewrite (replaceFrom_clean _ _ svgHead) by (vm_compute; reflexivity).
  rewrite replaceFrom_match by discriminate.
  rewrite substitution_plain by exact Hd.
  rewrite (replaceFrom_clean _ _ svgBody) by (vm_compute; reflexivity).
  rewrite replaceFrom_match by discriminate.
  rewrite substitution_plain by exact Hd.
  rewrite replaceFrom_clean_end by (vm_compute; reflexivity).
  reflexivity.
Qed.

Lemma replace_items h items :
  forallb isDigit h = true ->
  replaceAll (lit "{items}") items
    (svgHead ++ h ++ svgBody ++ h ++ svgBeforeItems ++ lit "{items}" ++ svgClose)
  = svgOpen h ++ expandedItems h items ++ svgClose.
Proof.
  intros Hh.
  assert (Hc : clean (lit "{items}") h = true).
  { change (lit "{items}") with (123%N :: lit "items}").
    apply clean_first_absent. now apply (class_excludes isDigit). }
  unfold replaceAll.
  rewrite (replaceFrom_clean _ _ svgHead) by (vm_compute; reflexivity).
  rewrite (replaceFrom_clean _ _ h) by exact Hc.
  rewrite (replaceFrom_clean _ _ svgBody) by (vm_compute; reflexivity).
  rewrite (replaceFrom_clean _ _ h) by exact Hc.
  rewrite (replaceFrom_clean _ _ svgBeforeItems) by (vm_compute; reflexivity).
  rewrite replaceFrom_match by discriminate.
  rewrite replaceFrom_clean_end by (vm_compute; reflexivity).
  cbn [app]. unfold expandedItems, svgOpen.
  rewrite <- !app_assoc. reflexivity.
Qed.

(** ** Text elements *)

Lemma mapi_ext {A B} (f g : nat -> A -> B) l i :
  (forall j x, f j x = g j x) -> mapi f i l = mapi g i l.
Proof.
  intros H. revert i. induction l as [|x l IH]; intros i; cbn [mapi];
    [reflexivity | now rewrite H, IH].
Qed.

Lemma svgItem_textElement rtl i color :
  svgItem rtl i color
  = textElement rtl (20 + 70 * (Z.of_nat i + 1))
      (rgbToHex (avgColorRGBCode color)) (xmlEscape (entryName color)).
Proof.
  unfold svgItem, textElement, itemY.
  replace (20 + (Z.of_nat i + 1) * 70)%Z with (20 + 70 * (Z.of_nat i + 1))%Z by lia.
  reflexivity.
Qed.

(** ** Texts without a dollar sign *)

Lemma twoHex_isHexText v :
  (0 <= v <= 255)%Z -> forallb isHexText (twoHex v) = true.
Proof.
  intros Hv.
  apply (byte_cases (fun v => forallb isHexText (twoHex v)));
    [vm_compute; reflexivity | exact Hv].
Qed.

(** Every character of a result of [rgbToHex] is [#] or a lowercase
    hexadecimal digit. *)
Lemma rgbToHex_isHexText s : forallb isHexText (rgbToHex s) = true.
Proof.
  destruct (rgbToHex_shape s) as (r & g & b & Hr & Hg & Hb & ->).
  rewrite !forallb_app, !twoHex_isHexText by assumption. reflexivity.
Qed.

Lemma rgbToHex_no_dollar s : includes dollar (rgbToHex s) = false.
Proof. apply (class_excludes isHexText); [reflexivity | apply rgbToHex_isHexText]. Qed.

Lemma replaceChar_excludes x c rep s :
  includes x rep = false -> includes x s = false ->
  includes x (replaceChar c rep s) = false.
Proof.
  intros Hrep. unfold replaceChar. induction s as [|y s IH]; intros H; [reflexivity|].
  rewrite includes_cons in H. apply orb_false_iff in H as [Hy H].
  cbn [flat_map]. rewrite includes_app, IH by assumption.
  destruct (N.eqb y c); [now rewrite Hrep|].
  rewrite includes_cons, Hy. reflexivity.
Qed.

Lemma xmlEscape_no_dollar s :
  includes dollar s = false -> includes dollar (xmlEscape s) = false.
Proof.
  intros H. unfold xmlEscape.
  repeat (apply replaceChar_excludes; [reflexivity|]). exact H.
Qed.

Lemma String_of_no_dollar n :
  (0 <= n)%Z -> includes dollar (String_of n) = false.
Proof.
  intros H. apply (class_excludes isDigit); [reflexivity | now apply String_of_isDigit].
Qed.

Lemma textElement_no_dollar rtl y fill label :
  (0 <= y)%Z -> includes dollar fill = false -> includes dollar label = false ->
  includes dollar (textElement rtl y fill label) = false.
Proof.
  intros Hy Hf Hl. unfold textElement.
  destruct rtl; rewrite !includes_app, Hf, Hl, String_of_no_dollar by exact Hy;
    reflexivity.
Qed.

Lemma join_no_dollar sep pieces :
  includes dollar sep = false ->
  Forall (fun p => includes dollar p = false) pieces ->
  includes dollar (join sep pieces) = false.
Proof.
  intros Hsep H. induction H as [|p pieces Hp H IH]; [reflexivity|].
  destruct pieces as [|p' pieces]; [exact Hp|].
  change (join sep (p :: p' :: pieces)) with (p ++ sep ++ join sep (p' :: pieces)).
  now rewrite !includes_app, Hp, Hsep, IH.
Qed.

Lemma mapi_Forall {A B} (P : B -> Prop) (f : nat -> A -> B) l i :
  (forall j x, In x l -> P (f j x)) -> Forall P (mapi f i l).
Proof.
  revert i. induction l as [|x l IH]; intros i H; cbn [mapi]; constructor.
  - apply H. now left.
  - apply IH. intros j y Hy. apply H. now right.
Qed.

Lemma itemYs_from (colors : list ColorInfo) i :
  mapi (fun i _ => itemY i) i colors
  = List.map (fun i => 20 + 70 * (Z.of_nat i + 1))%Z (seq i (List.length colors)).
Proof.
  revert i. induction colors as [|c colors IH]; intros i;
    cbn [mapi List.length seq List.map]; [reflexivity|].
  rewrite IH. unfold itemY. f_equal. lia.
Qed.

Lemma itemYs_seq colors :
  itemYs colors
  = List.map (fun i => 20 + 70 * (Z.of_nat i + 1))%Z (seq 0 (List.length colors)).
Proof. apply itemYs_from. Qed.

(** C8 (as amended).  For a group of [n] records the SVG is the template
    with the height [70 * n + 80] in the [viewBox] [0 0 600 height] and in
    the background [rect] of width 600, and, in the place of the items, one
    text element per record in order: the element of the record at
    position [i] (from 0) has [y = 20 + 70 * (i + 1)], so the first one is
    at 90 and the next ones follow every 70, and it is filled with the hex
    colour of the record.  The elements go through the replacement text of
    [replace]; they stand in the output unchanged when no name holds a
    dollar sign. *)
Theorem generateSVG_layout colors langAbv :
  let n := Z.of_nat (List.length colors) in
  let h := String_of (70 * n + 80) in
  let rtl := set_has langAbv RTL_LANGUAGES in
  let items :=
    join ([linefeed] ++ lit "  ")
      (mapi (fun i color =>
               textElement rtl (20 + 70 * (Z.of_nat i + 1))
                 (rgbToHex (avgColorRGBCode color))
                 (xmlEscape (entryName color)))
            0 colors) in
  generateSVG colors langAbv = svgOpen h ++ expandedItems h items ++ svgClose
  /\ ((forall color, In color colors -> includes dollar (entryName color) = false)
      -> expandedItems h items = items)
  /\ itemYs colors
     = List.map (fun i => 20 + 70 * (Z.of_nat i + 1))%Z (seq 0 (List.length colors)).
Proof.
  cbv zeta.
  assert (Hh : forallb isDigit
                 (String_of (70 * Z.of_nat (List.length colors) + 80)) = true)
    by (apply String_of_isDigit; lia).
  split; [|split].
  - unfold generateSVG. cbv zeta. unfold svgHeight.
    replace (Z.of_nat (List.length colors) * 70 + 80)%Z
      with (70 * Z.of_nat (List.length colors) + 80)%Z by lia.
    rewrite replace_height by exact Hh.
    rewrite replace_items by exact Hh.
    unfold svgItems. cbv zeta.
    rewrite (mapi_ext _ _ colors 0
               (svgItem_textElement (set_has langAbv RTL_LANGUAGES))).
    reflexivity.
  - intros Hnames. unfold expandedItems. apply substitution_plain.
    apply join_no_dollar; [reflexivity|].
    apply mapi_Forall. intros j color Hin.
    apply textElement_no_dollar; [lia | apply rgbToHex_no_dollar |].
    apply xmlEscape_no_dollar. now apply Hnames.
  - apply itemYs_seq.
Qed.

(** For one record the only text element is at [y = 90], not at 20. *)
Lemma generateSVG_first_item_at_90 :
  generateSVG [enRecord "red"] (lit "en")
  = svgOpen (lit "150")
    ++ textElement false 90 (lit "#010203") (lit "red") ++ svgClose
  /\ itemYs [enRecord "red"] = [90%Z]
  /\ str_eqb (textElement false 90 (lit "#010203") (lit "red"))
             (textElement false 20 (lit "#010203") (lit "red")) = false.
Proof. repeat split; vm_compute; reflexivity. Qed.

(** A right-to-left group of two records. *)
Example generateSVG_rtl_example :
  let colors :=
    [MkColorInfo (lit "Persian (Farsi)") (lit "fa") (lit "a<b") [] (lit "rgb(0, 0, 255)") [] [] [] [];
     MkColorInfo (lit "Persian (Farsi)") (lit "fa") [] (lit "c&d") (lit "rgb(255, 0, 0)") [] [] [] []] in
  generateSVG colors (lit "fa")
  = svgOpen (lit "220")
    ++ textElement true 90 (lit "#0000ff") (lit "a&lt;b")
    ++ [linefeed] ++ lit "  "
    ++ textElement true 160 (lit "#ff0000") (lit "c&amp;d")
    ++ svgClose.
Proof. vm_compute. reflexivity. Qed.

(** A name that holds the replacement pattern [$$]: [replace] leaves one
    dollar sign in its place. *)
Example generateSVG_dollar_name :
  generateSVG
    [MkColorInfo (lit "English") (lit "en") (lit "a$$b") [] (lit "rgb(1, 2, 3)")
       [] [] [] []] (lit "en")
  = svgOpen (lit "150")
    ++ textElement false 90 (lit "#010203") (lit "a$b") ++ svgClose.
Proof. vm_compute. reflexivity. Qed.

(** ** The run of [main] on the specification's scenario *)

Lemma spanish_basename toLowerCase :
  lowerCaseOnAscii toLowerCase ->
  getLanguageBasename toLowerCase (lit "es") [spanishRecord] = lit "es-spanish".
Proof.
  intros Hlow. unfold getLanguageBasename. cbv zeta.
  change (trim (hd [] (split lparen (orElse (lang spanishRecord) (lit "es")))))
    with (lit "Spanish").
  rewrite (Hlow (lit "Spanish")) by reflexivity.
  vm_compute. reflexivity.
Qed.

(** C9.  From the upstream header and the one Spanish row, [main] writes
    three files of base name [es-spanish]; the JSON file is the array,
    indented by two spaces, of the single entry of name [light blue] and
    hex [#5b9bd5]. *)
Theorem spanish_row_end_to_end toLowerCase :
  lowerCaseOnAscii toLowerCase ->
  mainWrites toLowerCase spanishCsv
  = Some [ Write_ DATA_DIR (lit "es-spanish.csv")
             (lit "name,hex" ++ [linefeed] ++ lit "light blue,#5b9bd5");
           Write_ JSON_DIR (lit "es-spanish.json") spanishJson;
           Write_ SVG_DIR (lit "es-spanish.svg")
             (svgOpen (lit "150")
              ++ textElement false 90 (lit "#5b9bd5") (lit "light blue")
              ++ svgClose) ]
  /\ readJson spanishJson
     = Some [MkEntry (lit "light blue") (lit "#5b9bd5")].
Proof.
  intros Hlow. split; [|vm_compute; reflexivity].
  unfold mainWrites.
  assert (Hparse : traverse asColorInfo (parseCSV spanishCsv)
                   = Some [spanishRecord]) by (vm_compute; reflexivity).
  rewrite Hparse. cbn [bind].
  assert (Hgroup : groupByLanguage [spanishRecord]
                   = [(lit "es", [spanishRecord])]) by (vm_compute; reflexivity).
  rewrite Hgroup. cbn [flat_map writeLanguage app].
  rewrite (spanish_basename toLowerCase Hlow).
  assert (Hcsv : generateCSV [spanishRecord]
                 = lit "name,hex" ++ [linefeed] ++ lit "light blue,#5b9bd5")
    by (vm_compute; reflexivity).
  assert (Hjson : generateJSON [spanishRecord] = spanishJson)
    by (vm_compute; reflexivity).
  assert (Hsvg : generateSVG [spanishRecord] (lit "es")
                 = svgOpen (lit "150")
                   ++ textElement false 90 (lit "#5b9bd5") (lit "light blue")
                   ++ svgClose)
    by (vm_compute; reflexivity).
  rewrite Hcsv, Hjson, Hsvg. reflexivity.
Qed.

(** The scenario with the lower-casing of ASCII letters for
    [toLowerCase]. *)
Lemma spanish_row_end_to_end_ascii :
  mainWrites (List.map asciiLower) spanishCsv
  = Some [ Write_ DATA_DIR (lit "es-spanish.csv")
             (lit "name,hex" ++ [linefeed] ++ lit "light blue,#5b9bd5");
           Write_ JSON_DIR (lit "es-spanish.json") spanishJson;
           Write_ SVG_DIR (lit "es-spanish.svg")
             (svgOpen (lit "150")
              ++ textElement false 90 (lit "#5b9bd5") (lit "light blue")
              ++ svgClose) ]
  /\ readJson spanishJson
     = Some [MkEntry (lit "light blue") (lit "#5b9bd5")].
Proof.
  apply (spanish_row_end_to_end (List.map asciiLower)).
  intros s _. reflexivity.
Defined.

(** ** Reading the emitted JSON back *)

Lemma nrange_cases (check : N -> bool) start len :
  forallb check (nrange start len) = true ->
  forall c, (start <= c < start + N.of_nat len)%N -> check c = true.
Proof.
  revert start. induction len as [|len IH]; intros start H c Hc; [lia|].
  cbn [nrange forallb] in H. apply andb_true_iff in H as [H0 H].
  destruct (N.eq_dec c start) as [->|Hne]; [exact H0|].
  apply (IH (N.succ start) H). lia.
Qed.

Lemma escapeReadsBack_eq c :
  escapeReadsBack c = true ->
  hexValue4 (digitChar (c / 4096)) (digitChar ((c / 256) mod 16))
    (digitChar ((c / 16) mod 16)) (digitChar (c mod 16)) = Some c.
Proof.
  unfold escapeReadsBack. destruct (hexValue4 _ _ _ _) as [v|]; [|discriminate].
  intros H. apply N.eqb_eq in H. now subst.
Qed.

Lemma control_escape_reads_back c : (c < 32)%N -> escapeReadsBack c = true.
Proof.
  intros H. apply (nrange_cases escapeReadsBack 0 32);
    [vm_compute; reflexivity | lia].
Qed.

Lemma surrogate_escape_reads_back c :
  (55296 <= c <= 57343)%N -> escapeReadsBack c = true.
Proof.
  intros H. apply (nrange_cases escapeReadsBack 55296 2048);
    [vm_compute; reflexivity | lia].
Qed.

Lemma readChars_literal c tail :
  N.eqb c dquote = false -> N.eqb c Json.backslash = false ->
  readChars (c :: tail) = consRead c (readChars tail).
Proof. intros H1 H2. cbn [readChars]. now rewrite H1, H2. Qed.

Lemma readChars_unicodeEscape c tail :
  escapeReadsBack c = true ->
  readChars (Json.unicodeEscape c ++ tail) = consRead c (readChars tail).
Proof.
  intros H. apply escapeReadsBack_eq in H.
  unfold Json.unicodeEscape. cbn [app readChars].
  change (N.eqb Json.backslash dquote) with false.
  change (N.eqb Json.backslash Json.backslash) with true.
  change (N.eqb 117 117) with true. cbn iota.
  rewrite H. reflexivity.
Qed.

Lemma readChars_escapeUnit c tail :
  Json.isHighSurrogate c = false -> Json.isLowSurrogate c = false ->
  readChars (Json.escapeUnit c ++ tail) = consRead c (readChars tail).
Proof.
  intros _ _. unfold Json.escapeUnit.
  repeat match goal with
  | |- context [if N.eqb c ?k then _ else _] =>
      destruct (N.eqb_spec c k); [subst c; reflexivity|]
  end.
  destruct (N.ltb_spec c 32).
  - apply readChars_unicodeEscape. now apply control_escape_reads_back.
  - cbn [app]. apply readChars_literal; apply N.eqb_neq; assumption.
Qed.

Lemma surrogate_literal c :
  (Json.isHighSurrogate c || Json.isLowSurrogate c)%bool = true ->
  N.eqb c dquote = false /\ N.eqb c Json.backslash = false
  /\ escapeReadsBack c = true.
Proof.
  intros H. unfold Json.isHighSurrogate, Json.isLowSurrogate in H.
  assert (Hr : (55296 <= c <= 57343)%N) by (bool_to_prop; lia).
  repeat split.
  - apply N.eqb_neq. unfold dquote. lia.
  - apply N.eqb_neq. unfold Json.backslash. lia.
  - now apply surrogate_escape_reads_back.
Qed.

(** The reader undoes QuoteJSONString. *)
Lemma readChars_quoteBody s rest :
  readChars (Json.quoteBody s ++ dquote :: rest) = Some (s, rest).
Proof.
  remember (List.length s) as n eqn:Hn.
  assert (Hle : List.length s <= n) by lia. clear Hn.
  revert s Hle. induction n as [|n IH]; intros s Hle.
  - destruct s; [reflexivity | simpl in Hle; lia].
  - destruct s as [|c t]; [reflexivity|].
    cbn [List.length] in Hle.
    assert (IHt : readChars (Json.quoteBody t ++ dquote :: rest) = Some (t, rest))
      by (apply IH; lia).
    cbn [Json.quoteBody].
    destruct (Json.isHighSurrogate c) eqn:Hhi.
    + destruct (surrogate_literal c) as (Hq & Hb & He); [now rewrite Hhi|].
      destruct t as [|d t'].
      * rewrite readChars_unicodeEscape by exact He. reflexivity.
      * destruct (Json.isLowSurrogate d) eqn:Hlo.
        -- destruct (surrogate_literal d) as (Hq' & Hb' & _);
             [now rewrite Hlo, orb_true_r|].
           cbn [app]. rewrite readChars_literal, readChars_literal by assumption.
           rewrite IH by (cbn [List.length] in Hle; lia). reflexivity.
        -- rewrite <- app_assoc, readChars_unicodeEscape by exact He.
           now rewrite IHt.
    + destruct (Json.isLowSurrogate c) eqn:Hlo.
      * destruct (surrogate_literal c) as (_ & _ & He);
          [now rewrite Hlo, orb_true_r|].
        rewrite <- app_assoc, readChars_unicodeEscape by exact He.
        now rewrite IHt.
      * rewrite <- app_assoc, readChars_escapeUnit by assumption.
        now rewrite IHt.
Qed.

Lemma readQuoted_quoteJSON s rest :
  readQuoted (Json.quoteJSON s ++ rest) = Some (s, rest).
Proof.
  unfold Json.quoteJSON. rewrite <- !app_assoc. cbn [app readQuoted].
  rewrite N.eqb_refl. apply readChars_quoteBody.
Qed.

Lemma readEntry_stringifyEntry e rest :
  readEntry (Json.stringifyEntry e ++ rest) = Some (e, rest).
Proof.
  destruct e as [n h]. unfold readEntry, Json.stringifyEntry. cbn [name hex].
  rewrite <- !app_assoc.
  change (lit "{" ++ [linefeed] ++ lit "    " ++ Json.quoteJSON (lit "name") ++ ?x)
    with (123%N :: [linefeed] ++ lit "    " ++ Json.quoteJSON (lit "name") ++ x).
  rewrite expect_cons. cbn [bind].
  change (skipJsonSpaces ([linefeed] ++ lit "    " ++ Json.quoteJSON (lit "name") ++ ?x))
    with (Json.quoteJSON (lit "name") ++ x).
  rewrite readQuoted_quoteJSON. cbn [bind].
  change (skipJsonSpaces (lit ": " ++ Json.quoteJSON n ++ ?x))
    with (58%N :: lit " " ++ Json.quoteJSON n ++ x).
  rewrite expect_cons. cbn [bind].
  change (skipJsonSpaces (lit " " ++ Json.quoteJSON n ++ ?x))
    with (Json.quoteJSON n ++ x).
  rewrite readQuoted_quoteJSON. cbn [bind].
  change (skipJsonSpaces (lit "," ++ ?x)) with (comma :: x).
  rewrite expect_cons. cbn [bind].
  change (skipJsonSpaces ([linefeed] ++ lit "    " ++ Json.quoteJSON (lit "hex") ++ ?x))
    with (Json.quoteJSON (lit "hex") ++ x).
  rewrite readQuoted_quoteJSON. cbn [bind].
  change (skipJsonSpaces (lit ": " ++ Json.quoteJSON h ++ ?x))
    with (58%N :: lit " " ++ Json.quoteJSON h ++ x).
  rewrite expect_cons. cbn [bind].
  change (skipJsonSpaces (lit " " ++ Json.quoteJSON h ++ ?x))
    with (Json.quoteJSON h ++ x).
  rewrite readQuoted_quoteJSON. cbn [bind].
  change (skipJsonSpaces ([linefeed] ++ lit "  }" ++ rest)) with (125%N :: rest).
  rewrite expect_cons. reflexivity.
Qed.

Lemma join_entries_cons e es :
  join entrySeparator (List.map Json.stringifyEntry (e :: es))
  = Json.stringifyEntry e
    ++ match es with
       | [] => []
       | _ :: _ => entrySeparator
                   ++ join entrySeparator (List.map Json.stringifyEntry es)
       end.
Proof. destruct es; cbn [List.map join]; [now rewrite app_nil_r | reflexivity]. Qed.

Lemma skipJsonSpaces_entries e es rest :
  skipJsonSpaces
    (join entrySeparator (List.map Json.stringifyEntry (e :: es)) ++ rest)
  = join entrySeparator (List.map Json.stringifyEntry (e :: es)) ++ rest.
Proof. rewrite join_entries_cons, <- app_assoc. reflexivity. Qed.

Lemma readEntries_stringify es e fuel :
  List.length es < fuel ->
  readEntries fuel
    (join entrySeparator (List.map Json.stringifyEntry (e :: es))
     ++ [linefeed] ++ lit "]")
  = Some (e :: es).
Proof.
  revert e fuel. induction es as [|e' es IH]; intros e fuel Hf;
    (destruct fuel as [|fuel]; [cbn [List.length] in Hf; lia|]).
  - cbn [List.map join readEntries]. rewrite readEntry_stringifyEntry.
    reflexivity.
  - rewrite join_entries_cons, <- app_assoc. cbn [readEntries].
    rewrite readEntry_stringifyEntry. cbn [bind]. rewrite <- app_assoc.
    change (skipJsonSpaces (entrySeparator ++ ?x))
      with (comma :: [linefeed] ++ lit "  " ++ x).
    cbv iota beta. rewrite N.eqb_refl.
    change (skipJsonSpaces ([linefeed] ++ lit "  " ++ ?x)) with (skipJsonSpaces x).
    rewrite skipJsonSpaces_entries, IH by (cbn [List.length] in Hf; lia).
    reflexivity.
Qed.

Lemma stringifyEntry_length e : 1 <= List.length (Json.stringifyEntry e).
Proof. unfold Json.stringifyEntry. cbn [lit List.map list_ascii_of_string app List.length]. lia. Qed.

Lemma join_entries_length es :
  List.length es
  <= List.length (join entrySeparator (List.map Json.stringifyEntry es)).
Proof.
  induction es as [|e es IH]; [reflexivity|].
  rewrite join_entries_cons, length_app.
  pose proof (stringifyEntry_length e). cbn [List.length].
  destruct es as [|e' es]; [cbn [List.length]; lia|].
  rewrite length_app. lia.
Qed.

(** The JSON text reads back as the entries it was made from. *)
Lemma readJson_stringify entries :
  readJson (Json.stringify entries) = Some entries.
Proof.
  destruct entries as [|e es]; [reflexivity|].
  unfold Json.stringify, readJson. fold entrySeparator.
  set (body := join entrySeparator (List.map Json.stringifyEntry (e :: es))).
  change (skipJsonSpaces (lit "[" ++ [linefeed] ++ lit "  " ++ body ++ [linefeed] ++ lit "]"))
    with (91%N :: [linefeed] ++ lit "  " ++ body ++ [linefeed] ++ lit "]").
  cbv iota beta. rewrite N.eqb_refl.
  change (skipJsonSpaces ([linefeed] ++ lit "  " ++ body ++ [linefeed] ++ lit "]"))
    with (skipJsonSpaces (body ++ [linefeed] ++ lit "]")).
  unfold body at 1. rewrite skipJsonSpaces_entries. fold body.
  assert (Hread : readEntries
            (List.length (lit "[" ++ [linefeed] ++ lit "  " ++ body ++ [linefeed] ++ lit "]"))
            (body ++ [linefeed] ++ lit "]") = Some (e :: es)).
  { apply readEntries_stringify.
    pose proof (join_entries_length (e :: es)) as Hlen. fold body in Hlen.
    rewrite !length_app. cbn [List.length] in *. lia. }
  assert (Hshape : exists x,
            body ++ [linefeed] ++ lit "]" = 123%N :: linefeed :: x).
  { unfold body. rewrite join_entries_cons, <- app_assoc.
    unfold Json.stringifyEntry. rewrite <- !app_assoc. eexists. reflexivity. }
  destruct Hshape as [x Hx]. rewrite Hx in Hread |- *.
  cbv iota beta. exact Hread.
Qed.

(** ** The two emitters on the same records *)

Lemma split_no_sep sep p : includes sep p = false -> split sep p = [p].
Proof.
  induction p as [|c p IH]; intros H; [reflexivity|].
  rewrite includes_cons in H. apply orb_false_iff in H as [Hc H].
  cbn [split]. rewrite N.eqb_sym, Hc, IH by assumption. reflexivity.
Qed.

Lemma split_app_sep sep p rest :
  includes sep p = false -> split sep (p ++ sep :: rest) = p :: split sep rest.
Proof.
  induction p as [|c p IH]; intros H.
  - cbn [app split]. now rewrite N.eqb_refl.
  - rewrite includes_cons in H. apply orb_false_iff in H as [Hc H].
    cbn [app split]. rewrite N.eqb_sym, Hc, IH by assumption. reflexivity.
Qed.

Lemma split_join sep pieces :
  pieces <> [] ->
  Forall (fun p => includes sep p = false) pieces ->
  split sep (join [sep] pieces) = pieces.
Proof.
  intros Hne H. induction H as [|p pieces Hp H IH]; [congruence|].
  destruct pieces as [|p' pieces].
  - now apply split_no_sep.
  - change (join [sep] (p :: p' :: pieces))
      with (p ++ sep :: join [sep] (p' :: pieces)).
    rewrite split_app_sep by assumption. f_equal. apply IH. discriminate.
Qed.

Lemma csvLine_no_linefeed color :
  includes linefeed (entryName color) = false ->
  includes linefeed (csvLine color) = false.
Proof.
  intros H. unfold csvLine, escapeName.
  assert (Hhex : includes linefeed (rgbToHex (avgColorRGBCode color)) = false)
    by (apply (class_excludes isHexText); [reflexivity | apply rgbToHex_isHexText]).
  destruct (includes comma (entryName color) || includes dquote (entryName color))%bool;
    rewrite !includes_app, ?Hhex, ?H, ?replaceChar_excludes by (reflexivity || exact H);
    reflexivity.
Qed.

(** X13.  When no name holds a line feed, the lines of the CSV text are
    the header and the line of each record, and they read back as the
    entries of the JSON. *)
Lemma generateCSV_lines colors :
  (forall color, In color colors -> includes linefeed (entryName color) = false) ->
  split linefeed (generateCSV colors) = lit "name,hex" :: List.map csvLine colors
  /\ List.map readCsvLine (tl (split linefeed (generateCSV colors)))
     = List.map Some (colorArray colors).
Proof.
  intros Hnames.
  assert (Hsplit : split linefeed (generateCSV colors)
                   = lit "name,hex" :: List.map csvLine colors).
  { unfold generateCSV. rewrite csvLines_map. apply split_join; [discriminate|].
    constructor; [reflexivity|]. apply Forall_forall. intros l Hl.
    apply in_map_iff in Hl as (color & <- & Hin).
    apply csvLine_no_linefeed. now apply Hnames. }
  split; [exact Hsplit|]. rewrite Hsplit. cbn [tl].
  unfold colorArray. rewrite !map_map. apply map_ext. intros color.
  unfold csvLine. apply readCsvLine_escapeName.
Qed.

(** C7.  The CSV text is the header line followed by one line per record;
    these lines read back (quoting of the names undone) as exactly the
    entries that the JSON text reads back as, in the same order: the name
    and the hex colour of each record. *)
Theorem csv_and_json_entries_agree colors :
  generateCSV colors
  = join [linefeed] (lit "name,hex" :: List.map csvLine colors)
  /\ List.map readCsvLine (List.map csvLine colors)
     = List.map Some (colorArray colors)
  /\ readJson (generateJSON colors) = Some (colorArray colors)
  /\ colorArray colors
     = List.map (fun color =>
                   MkEntry (entryName color) (rgbToHex (avgColorRGBCode color)))
         colors.
Proof.
  split; [|split; [|split]].
  - unfold generateCSV. now rewrite csvLines_map.
  - unfold colorArray. rewrite !map_map. apply map_ext. intros color.
    unfold csvLine. apply readCsvLine_escapeName.
  - unfold generateJSON. apply readJson_stringify.
  - reflexivity.
Qed.

(** A name with a quote, a comma and a line feed in both texts. *)
Example csv_and_json_awkward_name :
  let color := MkColorInfo (lit "English") (lit "en") []
                 (lit "sea, " ++ q "deep" ++ [linefeed] ++ lit "blue")
                 (lit "rgb(0, 0, 128)") [] [] [] [] in
  readJson (generateJSON [color])
  = Some [MkEntry (lit "sea, " ++ q "deep" ++ [linefeed] ++ lit "blue")
            (lit "#000080")]
  /\ List.map readCsvLine (List.map csvLine [color])
     = [Some (MkEntry (lit "sea, " ++ q "deep" ++ [linefeed] ++ lit "blue")
                (lit "#000080"))].
Proof. split; vm_compute; reflexivity. Qed.

(* ================================================================== *)
(** * Part III: further properties of the script                       *)
(* ================================================================== *)

(** ** More on [rgbToHex] *)

Lemma twoHex_lower_hex v :
  (0 <= v <= 255)%Z -> forallb isLowerHexDigit (twoHex v) = true.
Proof.
  intros Hv.
  apply (byte_cases (fun v => forallb isLowerHexDigit (twoHex v)));
    [vm_compute; reflexivity | exact Hv].
Qed.

(** X1.  Whatever the input, the result of [rgbToHex] has seven
    characters: a [#] and six lowercase hexadecimal digits. *)
Theorem rgbToHex_result_is_hex_colour s :
  exists digits,
    rgbToHex s = 35%N :: digits
    /\ List.length digits = 6
    /\ forallb isLowerHexDigit digits = true.
Proof.
  destruct (rgbToHex_shape s) as (r & g & b & Hr & Hg & Hb & E).
  exists (twoHex r ++ twoHex g ++ twoHex b). split; [exact E|]. split.
  - reflexivity.
  - rewrite !forallb_app, !twoHex_lower_hex by assumption. reflexivity.
Qed.

Lemma natToString_digitRun n : digitRun (natToString 10 n).
Proof.
  unfold natToString. split;
    [apply radixDigits_nonempty | apply radixDigits_isDigit].
Qed.

(** The decimal text of any integer is an integer token of the pattern
    that denotes the integer. *)
Lemma String_of_intToken n :
  intToken (String_of n) /\ tokenValue (String_of n) = n.
Proof.
  destruct (Z.ltb_spec n 0) as [Hneg|Hpos].
  - unfold String_of, toString. destruct (Z.ltb_spec n 0); [|lia].
    split; [apply tok_minus, natToString_digitRun|].
    unfold tokenValue. rewrite N.eqb_refl, natToString_value. lia.
  - destruct (String_of_token n Hpos) as [Hrun Hval].
    split; [now apply tok_plain | exact Hval].
Qed.

Lemma twoHex_hexPair v :
  (0 <= v <= 255)%Z ->
  exists hi lo, twoHex v = [hi; lo] /\ hexPair hi lo = Some v.
Proof.
  intros Hv. exists (hexDigit (v / 16)), (hexDigit (v mod 16)).
  split; [reflexivity|].
  pose (check := fun v =>
    match hexPair (hexDigit (v / 16)) (hexDigit (v mod 16)) with
    | Some z => Z.eqb z v
    | None => false
    end).
  assert (H : check v = true)
    by (apply byte_cases; [vm_compute; reflexivity | exact Hv]).
  unfold check in H.
  destruct (hexPair (hexDigit (v / 16)) (hexDigit (v mod 16))) as [z|];
    [|discriminate].
  apply Z.eqb_eq in H. now subst.
Qed.

(** X2.  For any three integers, negative or large, the result of
    [rgbToHex] on the text [rgb(r, g, b)] reads back as the three integers
    clamped to the range 0..255. *)
Theorem rgbToHex_round_trip_clamped r g b :
  hexChannels (rgbToHex (rgbText r g b))
  = Some (clampByte r, clampByte g, clampByte b).
Proof.
  destruct (String_of_intToken r) as [Tr Vr].
  destruct (String_of_intToken g) as [Tg Vg].
  destruct (String_of_intToken b) as [Tb Vb].
  assert (Hm : rgbMatch (rgbText r g b)
               = Some (String_of r, String_of g, String_of b)).
  { apply (rgbMatch_leftmost _ []). exists (rgbText r g b).
    split; [reflexivity|]. split.
    - exists [], [], [], [32%N], [], [32%N], [], [].
      repeat (split; [reflexivity || assumption|]). reflexivity.
    - intros b' m' d1 d2 d3 _ Hlen. simpl in Hlen. lia. }
  rewrite (rgbToHex_of_groups _ _ _ _ Hm Tr Tg Tb), Vr, Vg, Vb.
  destruct (twoHex_hexPair _ (clampByte_range r)) as (r1 & r2 & -> & Pr).
  destruct (twoHex_hexPair _ (clampByte_range g)) as (g1 & g2 & -> & Pg).
  destruct (twoHex_hexPair _ (clampByte_range b)) as (b1 & b2 & -> & Pb).
  cbn [lit List.map list_ascii_of_string app hexChannels].
  change (N.eqb (N_of_ascii "#") 35) with true. cbn iota.
  rewrite Pr, Pg, Pb. reflexivity.
Qed.

Lemma matchAt_not_r c t : N.eqb c 114 = false -> matchAt (c :: t) = None.
Proof. intros H. unfold matchAt. cbn [expect]. now rewrite H. Qed.

Lemma rgbMatch_skips before m :
  includes 114 before = false -> rgbMatch (before ++ m) = rgbMatch m.
Proof.
  induction before as [|c before IH]; intros H; [reflexivity|].
  rewrite includes_cons in H. apply orb_false_iff in H as [Hc H].
  rewrite N.eqb_sym in Hc.
  change ((c :: before) ++ m) with (c :: (before ++ m)).
  rewrite rgbMatch_unfold, (matchAt_not_r _ _ Hc). now apply IH.
Qed.

Lemma matchesAt_app m after c1 c2 c3 :
  matchesAt m c1 c2 c3 -> matchesAt (m ++ after) c1 c2 c3.
Proof.
  intros (w1 & w2 & w3 & w4 & w5 & w6 & w7 & rest & H1 & H2 & H3 & H4 & H5
          & H6 & H7 & T1 & T2 & T3 & ->).
  exists w1, w2, w3, w4, w5, w6, w7, (rest ++ after).
  repeat (split; [assumption|]).
  rewrite <- !app_assoc. reflexivity.
Qed.

(** X3.  The pattern is searched for, not matched against the whole
    input: when a text of the pattern is preceded by a text without the
    letter [r] and followed by any text, the result is that of the text of
    the pattern alone. *)
Theorem rgbToHex_ignores_surrounding_text before m after c1 c2 c3 :
  includes 114 before = false ->
  matchesAt m c1 c2 c3 ->
  rgbToHex (before ++ m ++ after) = rgbToHex m.
Proof.
  intros Hb Hm. unfold rgbToHex.
  assert (H1 : rgbMatch (before ++ m ++ after) = Some (c1, c2, c3)).
  { rewrite rgbMatch_skips by exact Hb. rewrite rgbMatch_unfold.
    now rewrite (matchAt_complete _ _ _ _ (matchesAt_app _ after _ _ _ Hm)). }
  assert (H2 : rgbMatch m = Some (c1, c2, c3)).
  { rewrite rgbMatch_unfold. now rewrite (matchAt_complete _ _ _ _ Hm). }
  now rewrite (rgbToHexLog_groups _ _ _ _ H1), (rgbToHexLog_groups _ _ _ _ H2).
Qed.

(** A colour inside a style declaration. *)
Lemma rgbToHex_ignores_surrounding_text_example :
  rgbToHex (lit "fill: rgb(255, 128, 64) !important")
  = rgbToHex (lit "rgb(255, 128, 64)").
Proof.
  apply (rgbToHex_ignores_surrounding_text (lit "fill: ")
           (lit "rgb(255, 128, 64)") (lit " !important")
           (lit "255") (lit "128") (lit "64")).
  - vm_compute. reflexivity.
  - apply matchAt_sound. vm_compute. reflexivity.
Defined.

(** ** More on [parseCSV] *)

Lemma split_length sep s : List.length (split sep s) = S (countChar sep s).
Proof.
  unfold countChar. induction s as [|c s IH]; [reflexivity|].
  cbn [split filter]. rewrite (N.eqb_sym sep c).
  destruct (N.eqb c sep).
  - cbn [List.length]. now rewrite IH.
  - destruct (split sep s) as [|h r]; cbn [List.length] in *; lia.
Qed.

(** X4.  [parseCSV] returns one object per line feed of the trimmed text:
    none for an empty text or a text of one line, and one for every
    further line, blank lines included. *)
Theorem parseCSV_one_object_per_line csv :
  List.length (parseCSV csv) = countChar linefeed (trim csv).
Proof.
  unfold parseCSV. rewrite length_map.
  pose proof (split_length linefeed (trim csv)) as H.
  destruct (split linefeed (trim csv)) as [|h r]; cbn [List.length tl] in *; lia.
Qed.

Lemma get_put_same key value o : get key (put key value o) = Some value.
Proof.
  induction o as [|[k v] o IH]; cbn [put get].
  - now rewrite str_eqb_refl.
  - destruct (str_eqb k key) eqn:E; cbn [get]; now rewrite E.
Qed.

Lemma get_put_other key key' value o :
  str_eqb key' key = false -> get key (put key' value o) = get key o.
Proof.
  intros Hne. induction o as [|[k v] o IH]; cbn [put get].
  - now rewrite Hne.
  - destruct (str_eqb k key') eqn:E; cbn [get].
    + apply str_eqb_eq in E. subst k. now rewrite Hne.
    + now rewrite IH.
Qed.

Lemma get_assign key header value o :
  str_eqb key (lit "__proto__") = false ->
  get key (assign header value o)
  = if str_eqb header key then Some value else get key o.
Proof.
  intros Hkey. unfold assign.
  destruct (str_eqb header (lit "__proto__")) eqn:Eh.
  - apply str_eqb_eq in Eh. subst header.
    now rewrite str_eqb_sym, Hkey.
  - destruct (str_eqb header key) eqn:E.
    + apply str_eqb_eq in E. subst. apply get_put_same.
    + now apply get_put_other.
Qed.

Lemma get_assign_proto header value o :
  get (lit "__proto__") (assign header value o) = get (lit "__proto__") o.
Proof.
  unfold assign. destruct (str_eqb header (lit "__proto__")) eqn:Eh;
    [reflexivity | now apply get_put_other].
Qed.

Lemma get_fillObject key headers i vs o :
  str_eqb key (lit "__proto__") = false ->
  get key (fillObject headers i vs o)
  = match lastIndexFrom i key headers with
    | Some j => Some (valueOrEmpty vs j)
    | None => get key o
    end.
Proof.
  intros Hkey. revert i o. induction headers as [|h rest IH]; intros i o;
    [reflexivity|].
  cbn [fillObject lastIndexFrom]. rewrite IH.
  destruct (lastIndexFrom (S i) key rest); [reflexivity|].
  rewrite get_assign by exact Hkey. now destruct (str_eqb h key).
Qed.

Lemma get_fillObject_proto headers i vs o :
  get (lit "__proto__") (fillObject headers i vs o) = get (lit "__proto__") o.
Proof.
  revert i o. induction headers as [|h rest IH]; intros i o; [reflexivity|].
  cbn [fillObject]. now rewrite IH, get_assign_proto.
Qed.

Lemma lastIndexFrom_In key headers i :
  In key headers -> exists j, lastIndexFrom i key headers = Some j.
Proof.
  revert i. induction headers as [|h rest IH]; intros i Hin; [destruct Hin|].
  cbn [lastIndexFrom]. destruct (lastIndexFrom (S i) key rest) as [j|] eqn:E;
    [now exists j|].
  destruct Hin as [->|Hin].
  - rewrite str_eqb_refl. now exists i.
  - destruct (IH (S i) Hin) as [j Hj]. congruence.
Qed.


Lemma parseRow_lookup_value headers line key :
  get key (parseRow headers line)
  = if str_eqb key (lit "__proto__") then None
    else option_map (valueOrEmpty (rowValues line))
           (lastIndexFrom 0 key headers).
Proof.
  unfold parseRow. destruct (str_eqb key (lit "__proto__")) eqn:E.
  - apply str_eqb_eq in E. subst key. now rewrite get_fillObject_proto.
  - rewrite get_fillObject by exact E.
    destruct (lastIndexFrom 0 key headers); reflexivity.
Qed.



Lemma get_field headers line field :
  In field colorInfoFields -> In field headers ->
  get field (parseRow headers line) = Some (fieldOf headers line field).
Proof.
  intros Hf Hin. unfold parseRow, fieldOf.
  assert (Hp : str_eqb field (lit "__proto__") = false).
  { cbn [colorInfoFields In] in Hf.
    repeat destruct Hf as [<-|Hf]; try reflexivity. destruct Hf. }
  rewrite get_fillObject by exact Hp.
  destruct (lastIndexFrom_In field headers 0 Hin) as [j ->]. reflexivity.
Qed.

Lemma asColorInfo_parseRow headers line :
  (forall field, In field colorInfoFields -> In field headers) ->
  asColorInfo (parseRow headers line) = Some (recordOf headers line).
Proof.
  intros H. unfold asColorInfo.
  rewrite !get_field by (try apply H; cbn [colorInfoFields In]; tauto).
  reflexivity.
Qed.

Lemma traverse_map {A B C} (f : B -> option C) (g : A -> B) (h : A -> C) l :
  (forall x, f (g x) = Some (h x)) ->
  traverse f (List.map g l) = Some (List.map h l).
Proof.
  intros H. induction l as [|x l IH]; [reflexivity|].
  cbn [List.map traverse]. now rewrite H, IH.
Qed.

Lemma parseCSV_rows_are_records csv :
  (forall field, In field colorInfoFields ->
     In field (headerNames (hd [] (split linefeed (trim csv))))) ->
  traverse asColorInfo (parseCSV csv)
  = Some (List.map (recordOf (headerNames (hd [] (split linefeed (trim csv)))))
            (tl (split linefeed (trim csv)))).
Proof.
  intros H. unfold parseCSV. apply traverse_map.
  intros line. now apply asColorInfo_parseRow.
Qed.



Lemma space_not_comma_quote c :
  isWhiteSpace c = true -> N.eqb comma c = false /\ N.eqb dquote c = false.
Proof.
  intros H. unfold isWhiteSpace, comma, dquote in *.
  split; apply N.eqb_neq; intros <-; discriminate.
Qed.

Lemma spaces_no_comma_quote w :
  forallb isWhiteSpace w = true ->
  includes comma w = false /\ includes dquote w = false.
Proof.
  induction w as [|c w IH]; intros H; [split; reflexivity|].
  cbn [forallb] in H. apply andb_true_iff in H as [Hc H].
  destruct (IH H) as [H1 H2]. destruct (space_not_comma_quote c Hc) as [E1 E2].
  rewrite !includes_cons, E1, E2, H1, H2. split; reflexivity.
Qed.

Lemma trim_spaces w : forallb isWhiteSpace w = true -> trim w = [].
Proof.
  intros H. unfold trim, trimStart.
  rewrite <- (app_nil_r w), dropWhile_app by (exact H || exact I). reflexivity.
Qed.

Lemma rowValues_blank line :
  forallb isWhiteSpace line = true -> rowValues line = [[]].
Proof.
  intros H. destruct (spaces_no_comma_quote line H) as [Hc Hq].
  unfold rowValues. fold (scanFrom (Scan [] [] false) line).
  rewrite scan_plain by assumption. cbn [values current app].
  now rewrite trim_spaces.
Qed.

Lemma valueOrEmpty_blank j : valueOrEmpty [[]] j = [].
Proof. destruct j as [|[|j]]; reflexivity. Qed.

(** X7.  A line of white space only (an empty line too) is not skipped:
    under a header that names the nine fields it becomes a record all of
    whose fields are empty. *)
Theorem parseCSV_blank_line_is_an_empty_record headers line :
  (forall field, In field colorInfoFields -> In field headers) ->
  forallb isWhiteSpace line = true ->
  asColorInfo (parseRow headers line)
  = Some (MkColorInfo [] [] [] [] [] [] [] [] []).
Proof.
  intros Hh Hw. rewrite asColorInfo_parseRow by exact Hh.
  unfold recordOf, fieldOf. rewrite (rowValues_blank line Hw).
  repeat match goal with
  | |- context [lastIndexFrom 0 ?f headers] =>
      destruct (lastIndexFrom 0 f headers); rewrite ?valueOrEmpty_blank
  end; reflexivity.
Qed.

(** A line of two spaces between two rows of the upstream table. *)
Lemma parseCSV_blank_line_example :
  asColorInfo (parseRow (headerNames upstreamHeader) (lit "  "))
  = Some (MkColorInfo [] [] [] [] [] [] [] [] []).
Proof.
  apply (parseCSV_blank_line_is_an_empty_record
           (headerNames upstreamHeader) (lit "  ")).
  - intros field Hf. cbn [colorInfoFields In] in Hf.
    repeat destruct Hf as [<-|Hf]; try (vm_compute; tauto).
  - reflexivity.
Defined.

Lemma split_cons_shape sep s : exists h r, split sep s = h :: r.
Proof.
  destruct s as [|c s]; cbn [split]; [now eexists _, _|].
  destruct (N.eqb c sep); [now eexists _, _|].
  destruct (split sep s); now eexists _, _.
Qed.

Lemma scan_without_quotes t vs cur :
  includes dquote t = false ->
  values (scanFrom (Scan vs cur false) t)
  ++ [trim (current (scanFrom (Scan vs cur false) t))]
  = vs ++ List.map trim (prependTo cur (split comma t)).
Proof.
  revert vs cur. induction t as [|c t IH]; intros vs cur Hq.
  - cbn. now rewrite app_nil_r.
  - rewrite includes_cons in Hq. apply orb_false_iff in Hq as [Hc Hq].
    rewrite N.eqb_sym in Hc. rewrite scanFrom_cons. cbn [split].
    destruct (split_cons_shape comma t) as (h & r & Es).
    destruct (N.eqb c comma) eqn:Ec.
    + apply N.eqb_eq in Ec. subst c. rewrite scanChar_comma, IH by exact Hq.
      rewrite Es. cbn [prependTo List.map app].
      now rewrite app_nil_r, <- app_assoc.
    + rewrite scanChar_other by (cbn [inQuotes]; now rewrite ?Hc, ?Ec).
      cbn [values current inQuotes]. rewrite IH by exact Hq.
      rewrite Es. cbn [prependTo]. now rewrite <- app_assoc.
Qed.

(** X8.  On a line without a double quote the scanner of the data rows
    and the split of the header line give the same pieces, so that a row
    and a header written alike have their columns in step. *)
Theorem rowValues_without_quotes line :
  includes dquote line = false -> rowValues line = headerNames line.
Proof.
  intros H. unfold rowValues, headerNames.
  fold (scanFrom (Scan [] [] false) line).
  rewrite scan_without_quotes by exact H.
  destruct (split_cons_shape comma line) as (h & r & ->). reflexivity.
Qed.

(** The upstream header read as a data row. *)
Lemma rowValues_without_quotes_example :
  rowValues upstreamHeader = headerNames upstreamHeader.
Proof.
  apply (rowValues_without_quotes upstreamHeader). reflexivity.
Defined.

Lemma stops_prefix p a b : a <> [] -> stops p (a ++ b) -> stops p a.
Proof. destruct a; [congruence | trivial]. Qed.

(** The result of [trim] neither starts nor ends with white space. *)
Lemma trim_isTrimmed s : isTrimmed (trim s).
Proof.
  unfold trim, trimEnd, trimStart.
  set (a := dropWhile isWhiteSpace s).
  pose proof (dropWhile_stops isWhiteSpace s) as Ha. fold a in Ha.
  pose proof (dropWhile_stops isWhiteSpace (rev a)) as Hb.
  pose proof (takeWhile_dropWhile isWhiteSpace (rev a)) as Hsplit.
  set (b := dropWhile isWhiteSpace (rev a)) in *.
  split.
  - destruct (rev b) as [|x t] eqn:E; [exact I|].
    assert (Hrev : a = rev b ++ rev (takeWhile isWhiteSpace (rev a))).
    { rewrite <- rev_app_distr, Hsplit. now rewrite rev_involutive. }
    rewrite Hrev, E in Ha. exact Ha.
  - now rewrite rev_involutive.
Qed.

Lemma valueOrEmpty_Forall (P : jsstring -> Prop) vs j :
  P [] -> Forall P vs -> P (valueOrEmpty vs j).
Proof.
  intros Hnil H. unfold valueOrEmpty.
  destruct (nth_error vs j) as [v|] eqn:E; [|exact Hnil].
  rewrite Forall_forall in H. apply H. eapply nth_error_In; eassumption.
Qed.

Lemma scanFrom_trimmed text st :
  Forall isTrimmed (values st) -> Forall isTrimmed (values (scanFrom st text)).
Proof.
  revert st. induction text as [|c t IH]; intros st H; [exact H|].
  rewrite scanFrom_cons. apply IH. unfold scanChar.
  destruct (N.eqb c dquote); [exact H|].
  destruct (N.eqb c comma && negb (inQuotes st))%bool; cbn [values]; [|exact H].
  apply Forall_app. split; [exact H|].
  constructor; [apply trim_isTrimmed | constructor].
Qed.

Lemma rowValues_trimmed line : Forall isTrimmed (rowValues line).
Proof.
  unfold rowValues. fold (scanFrom (Scan [] [] false) line).
  apply Forall_app. split.
  - apply scanFrom_trimmed. constructor.
  - constructor; [apply trim_isTrimmed | constructor].
Qed.

(** X9.  No value of an object that [parseCSV] returns starts or ends with
    white space; in particular a carriage return left at the end of a line
    is not part of the last value. *)
Theorem parseCSV_values_are_trimmed csv obj key v :
  In obj (parseCSV csv) -> get key obj = Some v -> isTrimmed v.
Proof.
  unfold parseCSV. intros Hobj Hget.
  apply in_map_iff in Hobj as (line & <- & _).
  rewrite parseRow_lookup_value in Hget.
  destruct (str_eqb key (lit "__proto__")); [discriminate|].
  destruct (lastIndexFrom 0 key _) as [j|]; [|discriminate].
  inversion Hget; subst.
  apply valueOrEmpty_Forall; [split; exact I | apply rowValues_trimmed].
Qed.

(** Lines that end with a carriage return and a line feed. *)
Lemma parseCSV_values_are_trimmed_example :
  get (lit "b")
    (parseRow [lit "a"; lit "b"] (lit "x , y " ++ [13%N]))
  = Some (lit "y")
  /\ isTrimmed (lit "y").
Proof.
  split; [vm_compute; reflexivity|].
  apply (parseCSV_values_are_trimmed
           (lit "a,b" ++ [13%N; linefeed] ++ lit "x , y " ++ [13%N; linefeed])
           [(lit "a", lit "x"); (lit "b", lit "y")] (lit "b") (lit "y")).
  - vm_compute. left. reflexivity.
  - vm_compute. reflexivity.
Defined.

Lemma rowValues_trailing_quote line :
  rowValues (line ++ [dquote]) = rowValues line.
Proof.
  unfold rowValues. fold (scanFrom (Scan [] [] false) line).
  fold (scanFrom (Scan [] [] false) (line ++ [dquote])).
  rewrite scanFrom_app, scanFrom_cons, scanChar_quote. reflexivity.
Qed.

Lemma join_snoc_app sep pieces p x :
  join sep (pieces ++ [p]) ++ x = join sep (pieces ++ [p ++ x]).
Proof.
  induction pieces as [|a pieces IH]; [reflexivity|].
  cbn [app]. destruct (pieces ++ [p]) as [|b l] eqn:E1;
    [now destruct pieces|].
  destruct (pieces ++ [p ++ x]) as [|b' l'] eqn:E2; [now destruct pieces|].
  change (join sep (a :: b :: l)) with (a ++ sep ++ join sep (b :: l)).
  change (join sep (a :: b' :: l')) with (a ++ sep ++ join sep (b' :: l')).
  now rewrite <- !app_assoc, IH.
Qed.

(** X10.  A quote that is opened in the last field of a row and never
    closed is closed by the end of the line: the row has the values of
    its cells, then the trimmed text after the quote, commas included. *)
Theorem rowValues_unclosed_quote cells text :
  forallb cellOk cells = true ->
  includes dquote text = false ->
  rowValues (join [comma] (List.map cellSource cells ++ [dquote :: text]))
  = List.map (fun c => trim (cellText c)) cells ++ [trim text].
Proof.
  intros Hcells Htext.
  rewrite <- rowValues_trailing_quote, join_snoc_app.
  change ((dquote :: text) ++ [dquote]) with (cellSource (Quoted text)).
  change (List.map cellSource cells ++ [cellSource (Quoted text)])
    with (List.map cellSource cells ++ List.map cellSource [Quoted text]).
  rewrite <- map_app. fold (rowSource (cells ++ [Quoted text])).
  rewrite rowValues_cells.
  - now rewrite map_app.
  - now destruct cells.
  - rewrite forallb_app, Hcells. cbn [forallb cellOk].
    now rewrite Htext.
Qed.

(** A colour whose closing quote is missing. *)
Lemma rowValues_unclosed_quote_example :
  rowValues (lit "Spanish,es," ++ [dquote] ++ lit "rgb(91, 155, 213),0.02")
  = [lit "Spanish"; lit "es"; lit "rgb(91, 155, 213),0.02"].
Proof.
  apply (rowValues_unclosed_quote [Plain (lit "Spanish"); Plain (lit "es")]
           (lit "rgb(91, 155, 213),0.02")); reflexivity.
Defined.

(** ** More on [groupByLanguage] *)

Lemma map_push_permutation {V} key (x : V) m :
  map_has key m = true ->
  Permutation (List.concat (List.map snd (map_push key x m)))
              (x :: List.concat (List.map snd m)).
Proof.
  induction m as [|[k arr] rest IH]; cbn [map_has]; [discriminate|].
  intros H. cbn [map_push]. destruct (str_eqb k key) eqn:E.
  - cbn [List.map snd List.concat]. rewrite <- app_assoc.
    symmetry. apply Permutation_middle.
  - cbn [orb] in H. cbn [List.map snd List.concat].
    rewrite (IH H). symmetry. apply Permutation_middle.
Qed.

Lemma map_set_has {V} key (v : V) m : map_has key (map_set key v m) = true.
Proof.
  induction m as [|[k w] rest IH]; cbn [map_set map_has].
  - now rewrite str_eqb_refl.
  - destruct (str_eqb k key) eqn:E; cbn [map_has]; rewrite E; [reflexivity | exact IH].
Qed.

Lemma map_set_new_concat {V} key (m : jsmap (list V)) :
  map_has key m = false ->
  List.concat (List.map snd (map_set key [] m)) = List.concat (List.map snd m).
Proof.
  induction m as [|[k arr] rest IH]; cbn [map_has map_set]; intros H.
  - reflexivity.
  - apply orb_false_iff in H as [E H]. rewrite E.
    cbn [List.map snd List.concat]. now rewrite IH.
Qed.

Lemma groupStep_permutation m color :
  Permutation (List.concat (List.map snd (groupStep m color)))
              (color :: List.concat (List.map snd m)).
Proof.
  unfold groupStep. cbv zeta.
  destruct (map_has (languageKey color) m) eqn:E; cbn [negb].
  - now apply map_push_permutation.
  - rewrite map_push_permutation by apply map_set_has.
    now rewrite map_set_new_concat.
Qed.

Lemma fold_groupStep_permutation colors m :
  Permutation (List.concat (List.map snd (fold_left groupStep colors m)))
              (List.concat (List.map snd m) ++ colors).
Proof.
  revert m. induction colors as [|c colors IH]; intros m; cbn [fold_left].
  - now rewrite app_nil_r.
  - rewrite IH, groupStep_permutation. apply Permutation_middle.
Qed.

Lemma In_keysOf key seen :
  In key (keysOf seen) -> exists color, In color seen /\ keyIs key color = true.
Proof.
  unfold keysOf. intros H. apply in_map_iff in H as (color & <- & Hin).
  exists color. split; [exact Hin | apply str_eqb_refl].
Qed.

Lemma In_firstSeen key keys : In key (firstSeen keys) -> In key keys.
Proof.
  induction keys as [|k keys IH]; cbn [firstSeen]; [tauto|].
  intros [->|H]; [now left|]. right. apply IH.
  now apply filter_In in H as [H _].
Qed.

(** X11.  Grouping loses and repeats nothing: the groups together hold
    the input records, each once; no two groups have the same key; no
    group is empty; every record of a group has the key of the group. *)
Theorem groupByLanguage_keeps_every_record colors :
  Permutation (List.concat (List.map snd (groupByLanguage colors))) colors
  /\ NoDup (List.map fst (groupByLanguage colors))
  /\ forall key group,
       In (key, group) (groupByLanguage colors) ->
       group <> []
       /\ forall color, In color group -> languageKey color = key.
Proof.
  assert (Hshape : groupByLanguage colors
                   = List.map (groupOf colors) (firstSeen (keysOf colors)))
    by exact (fold_groupStep_groups colors []).
  split; [|split].
  - exact (fold_groupStep_permutation colors []).
  - rewrite Hshape, map_map. cbn [groupOf fst]. rewrite map_id.
    apply NoDup_firstSeen.
  - intros key group Hin. rewrite Hshape in Hin.
    apply in_map_iff in Hin as (k & Hk & Hfirst).
    unfold groupOf in Hk. inversion Hk; subst k group. split.
    + apply In_firstSeen, In_keysOf in Hfirst as (color & Hc & Hkey).
      intros Hnil.
      assert (Hf : In color (filter (keyIs key) colors))
        by (apply filter_In; now split).
      rewrite Hnil in Hf. destruct Hf.
    + intros color Hc. apply filter_In in Hc as [_ Hc].
      unfold keyIs in Hc. now apply str_eqb_eq.
Qed.

(** ** More on the emitters *)

Lemma dropWhile_stops_id p s : stops p s -> dropWhile p s = s.
Proof. destruct s as [|c s]; [reflexivity|]. cbn. now intros ->. Qed.

Lemma trim_of_trimmed s : isTrimmed s -> trim s = s.
Proof.
  intros [H1 H2]. unfold trim, trimEnd, trimStart.
  rewrite (dropWhile_stops_id _ _ H1), (dropWhile_stops_id _ _ H2).
  apply rev_involutive.
Qed.

Lemma noSpace_isTrimmed s : noSpace s = true -> isTrimmed s.
Proof.
  unfold noSpace. intros H. rewrite forallb_forall in H. split.
  - destruct s as [|c s]; [exact I|]. cbn.
    apply negb_true_iff, H. now left.
  - destruct (rev s) as [|c t] eqn:E; [exact I|]. cbn.
    apply negb_true_iff, H, in_rev. rewrite E. now left.
Qed.

Lemma hexText_not_space c : isHexText c = true -> isWhiteSpace c = false.
Proof.
  intros H. destruct (isWhiteSpace c) eqn:E; [|reflexivity].
  unfold isHexText, isDigit, isWhiteSpace in *. bool_to_prop; lia.
Qed.

Lemma rgbToHex_noSpace s : noSpace (rgbToHex s) = true.
Proof.
  unfold noSpace. apply forallb_forall. intros c Hc.
  pose proof (rgbToHex_isHexText s) as H. rewrite forallb_forall in H.
  apply negb_true_iff, hexText_not_space, H, Hc.
Qed.

(** Inside quotes, the scanner reads a name with its quotes doubled as
    the name without its quotes. *)
Lemma scan_doubled_quotes n vs cur :
  scanFrom (Scan vs cur true) (replaceChar dquote [dquote; dquote] n)
  = Scan vs (cur ++ withoutQuotes n) true.
Proof.
  revert cur. unfold replaceChar, withoutQuotes.
  induction n as [|c n IH]; intros cur.
  - cbn. now rewrite app_nil_r.
  - cbn [flat_map filter]. destruct (N.eqb c dquote) eqn:E; cbn [negb].
    + cbn [app]. rewrite !scanFrom_cons, !scanChar_quote.
      cbn [values current inQuotes negb]. apply IH.
    + cbn [app]. rewrite scanFrom_cons, scanChar_other
        by (cbn [inQuotes negb]; now rewrite ?E, ?andb_false_r).
      cbn [values current inQuotes]. rewrite IH, <- app_assoc. reflexivity.
Qed.

Lemma withoutQuotes_id n : includes dquote n = false -> withoutQuotes n = n.
Proof.
  unfold withoutQuotes. induction n as [|c n IH]; intros H; [reflexivity|].
  rewrite includes_cons in H. apply orb_false_iff in H as [Hc H].
  cbn [filter]. rewrite N.eqb_sym, Hc. cbn [negb]. now rewrite IH.
Qed.

(** The reader of the script on a line that its CSV emitter wrote. *)
Lemma rowValues_csvLine color :
  rowValues (csvLine color)
  = [trim (withoutQuotes (entryName color));
     rgbToHex (avgColorRGBCode color)].
Proof.
  set (hex := rgbToHex (avgColorRGBCode color)).
  assert (Hc : includes comma hex = false)
    by (apply (class_excludes isHexText); [reflexivity | apply rgbToHex_isHexText]).
  assert (Hq : includes dquote hex = false)
    by (apply (class_excludes isHexText); [reflexivity | apply rgbToHex_isHexText]).
  assert (Ht : trim hex = hex)
    by (apply trim_of_trimmed, noSpace_isTrimmed, rgbToHex_noSpace).
  unfold csvLine, rowValues. fold hex.
  fold (scanFrom (Scan [] [] false) (escapeName (entryName color) ++ [comma] ++ hex)).
  unfold escapeName.
  destruct (includes comma (entryName color) || includes dquote (entryName color))%bool
    eqn:E.
  - rewrite <- !app_assoc. cbn [app].
    rewrite scanFrom_cons, scanChar_quote. cbn [values current inQuotes negb].
    rewrite scanFrom_app, scan_doubled_quotes.
    rewrite !scanFrom_cons, scanChar_quote. cbn [values current inQuotes negb].
    rewrite scanChar_comma, scan_plain by assumption.
    cbn [values current app]. now rewrite Ht.
  - apply orb_false_iff in E as [E1 E2].
    rewrite scanFrom_app, scan_plain by assumption.
    cbn [app]. rewrite scanFrom_cons, scanChar_comma, scan_plain by assumption.
    cbn [values current app]. now rewrite Ht, withoutQuotes_id.
Qed.

Lemma fieldOf_clean headers line field :
  quoteFree (fieldOf headers line field) /\ isTrimmed (fieldOf headers line field).
Proof.
  unfold fieldOf. destruct (lastIndexFrom 0 field headers) as [j|].
  - split; apply valueOrEmpty_Forall;
      [intros [] | apply rowValues_quoteFree
       | split; exact I | apply rowValues_trimmed].
  - split; [intros [] | split; exact I].
Qed.

(** X12.  The reader of the script on a line that its CSV emitter wrote:
    it gives two values, the name without its double quotes and trimmed,
    and the hex colour, so that a name with a comma comes back whole and
    the double quotes of a name are lost.  For a record that the reader
    itself made from a row, nothing is lost: the values are the name and
    the hex colour. *)
Theorem rowValues_of_emitted_line color :
  rowValues (csvLine color)
  = [trim (withoutQuotes (entryName color));
     rgbToHex (avgColorRGBCode color)]
  /\ forall headers line,
       color = recordOf headers line ->
       rowValues (csvLine color)
       = [entryName color; rgbToHex (avgColorRGBCode color)].
Proof.
  split; [apply rowValues_csvLine|].
  intros headers line ->. rewrite rowValues_csvLine. f_equal.
  assert (H : quoteFree (entryName (recordOf headers line))
              /\ isTrimmed (entryName (recordOf headers line))).
  { unfold entryName, orElse. cbn [recordOf commonName simplifiedName].
    destruct (fieldOf headers line (lit "commonName")) eqn:E;
      [apply fieldOf_clean | rewrite <- E; apply fieldOf_clean]. }
  destruct H as [Hq Ht].
  rewrite withoutQuotes_id by (now apply includes_false).
  now apply trim_of_trimmed.
Qed.

(** Two names, one with a comma, split back into three lines. *)
Lemma generateCSV_lines_example :
  split linefeed
    (generateCSV [enRecord "deep, dark red"; enRecord "blue"])
  = [lit "name,hex"; q "deep, dark red" ++ lit ",#010203"; lit "blue,#010203"]
  /\ List.map readCsvLine
       (tl (split linefeed
              (generateCSV [enRecord "deep, dark red"; enRecord "blue"])))
     = [Some (MkEntry (lit "deep, dark red") (lit "#010203"));
        Some (MkEntry (lit "blue") (lit "#010203"))].
Proof.
  apply (generateCSV_lines [enRecord "deep, dark red"; enRecord "blue"]).
  intros color [<-|[<-|[]]]; reflexivity.
Defined.

Lemma replaceChar_app c rep a b :
  replaceChar c rep (a ++ b) = replaceChar c rep a ++ replaceChar c rep b.
Proof. unfold replaceChar. apply flat_map_app. Qed.

Lemma replaceChar_single k rep c :
  replaceChar k rep [c] = if N.eqb c k then rep else [c].
Proof. unfold replaceChar. cbn [flat_map]. apply app_nil_r. Qed.

Lemma xmlEscape_cons c s : xmlEscape (c :: s) = escapeXmlChar c ++ xmlEscape s.
Proof.
  unfold xmlEscape, escapeXmlChar.
  change (c :: s) with ([c] ++ s). rewrite !replaceChar_app.
  f_equal. rewrite (replaceChar_single 38).
  destruct (N.eqb c 38); [reflexivity|].
  rewrite (replaceChar_single 60).
  destruct (N.eqb c 60); [reflexivity|].
  apply replaceChar_single.
Qed.

Lemma xmlUnescapeFrom_skip u r :
  xmlUnescapeFrom (List.length u) (u ++ r) = xmlUnescapeFrom 0 r.
Proof. induction u as [|c u IH]; [reflexivity | exact IH]. Qed.

Lemma xmlUnescape_escapeXmlChar c r :
  xmlUnescapeFrom 0 (escapeXmlChar c ++ r) = c :: xmlUnescapeFrom 0 r.
Proof.
  unfold escapeXmlChar.
  destruct (N.eqb_spec c 38) as [->|H38];
    [exact (f_equal (cons 38%N) (xmlUnescapeFrom_skip (lit "amp;") r))|].
  destruct (N.eqb_spec c 60) as [->|H60];
    [exact (f_equal (cons 60%N) (xmlUnescapeFrom_skip (lit "lt;") r))|].
  destruct (N.eqb_spec c 62) as [->|H62];
    [exact (f_equal (cons 62%N) (xmlUnescapeFrom_skip (lit "gt;") r))|].
  cbn [app xmlUnescapeFrom]. apply N.eqb_neq in H38. now rewrite H38.
Qed.

Lemma escapeXmlChar_no_angle c :
  includes 60 (escapeXmlChar c) = false /\ includes 62 (escapeXmlChar c) = false.
Proof.
  unfold escapeXmlChar.
  destruct (N.eqb_spec c 38); [split; reflexivity|].
  destruct (N.eqb_spec c 60); [split; reflexivity|].
  destruct (N.eqb_spec c 62); [split; reflexivity|].
  rewrite !includes_cons. cbn [includes existsb].
  split; rewrite orb_false_r; apply N.eqb_neq; congruence.
Qed.

(** X14.  The three replacements that [generateSVG] makes in a name act
    as one escape per character: the escaped name holds neither [<] nor
    [>], and it reads back as the name, also when the name already holds
    text such as [&lt;]. *)
Theorem xmlEscape_reads_back s :
  xmlUnescape (xmlEscape s) = s
  /\ includes 60 (xmlEscape s) = false
  /\ includes 62 (xmlEscape s) = false.
Proof.
  unfold xmlUnescape. induction s as [|c s (IH & I1 & I2)].
  - repeat split; reflexivity.
  - rewrite xmlEscape_cons, xmlUnescape_escapeXmlChar, IH, !includes_app, I1, I2.
    destruct (escapeXmlChar_no_angle c) as [-> ->]. repeat split; reflexivity.
Qed.

(** ** More on [getLanguageBasename] and [main] *)

Lemma replaceSpaceRuns_noSpace rep s :
  noSpace rep = true -> noSpace (replaceSpaceRuns rep s) = true.
Proof.
  intros Hrep. unfold noSpace in *.
  induction s as [|c s IH]; [reflexivity|].
  cbn [replaceSpaceRuns]. destruct (isWhiteSpace c) eqn:Ec.
  - destruct s as [|c' s']; [exact Hrep|].
    destruct (isWhiteSpace c'); [exact IH|].
    rewrite forallb_app, Hrep. exact IH.
  - cbn [forallb]. now rewrite Ec, IH.
Qed.

Lemma replaceSpaceRuns_space rep c x s :
  isWhiteSpace c = true ->
  replaceSpaceRuns rep (c :: x :: s)
  = if isWhiteSpace x then replaceSpaceRuns rep (x :: s)
    else rep ++ replaceSpaceRuns rep (x :: s).
Proof.
  intros Hc. change (replaceSpaceRuns rep (c :: x :: s))
    with (if isWhiteSpace c
          then if isWhiteSpace x then replaceSpaceRuns rep (x :: s)
               else rep ++ replaceSpaceRuns rep (x :: s)
          else c :: replaceSpaceRuns rep (x :: s)).
  now rewrite Hc.
Qed.

Lemma replaceSpaceRuns_other rep c s :
  isWhiteSpace c = false ->
  replaceSpaceRuns rep (c :: s) = c :: replaceSpaceRuns rep s.
Proof.
  intros Hc. change (replaceSpaceRuns rep (c :: s))
    with (if isWhiteSpace c
          then match s with
               | c' :: _ => if isWhiteSpace c' then replaceSpaceRuns rep s
                            else rep ++ replaceSpaceRuns rep s
               | [] => rep
               end
          else c :: replaceSpaceRuns rep s).
  now rewrite Hc.
Qed.

(** [replaceSpaceRuns] with a hyphen writes one hyphen per maximal run
    of white space: the code writes it where the run ends, [hyphenateRuns]
    where the run begins. *)
Lemma replaceSpaceRuns_hyphenateRuns s :
  replaceSpaceRuns (lit "-") s = hyphenateRuns false s
  /\ forall c, isWhiteSpace c = true ->
       replaceSpaceRuns (lit "-") (c :: s) = lit "-" ++ hyphenateRuns true s.
Proof.
  induction s as [|x s [IH1 IH2]].
  - split; [reflexivity|]. intros c Hc. cbn [replaceSpaceRuns]. now rewrite Hc.
  - assert (H2 : forall c, isWhiteSpace c = true ->
               replaceSpaceRuns (lit "-") (c :: x :: s)
               = lit "-" ++ hyphenateRuns true (x :: s)).
    { intros c Hc. rewrite (replaceSpaceRuns_space _ _ _ _ Hc).
      cbn [hyphenateRuns]. destruct (isWhiteSpace x) eqn:Ex.
      - now apply IH2.
      - now rewrite (replaceSpaceRuns_other _ _ _ Ex), IH1. }
    split; [|exact H2].
    cbn [hyphenateRuns]. destruct (isWhiteSpace x) eqn:Ex.
    + now rewrite (IH2 x Ex).
    + now rewrite (replaceSpaceRuns_other _ _ _ Ex), IH1.
Qed.

(** X15.  The base name of a language whose full name has a part in
    parentheses: the name is cut at the first parenthesis, trimmed, put in
    lower case, and every maximal run of white space in it becomes one
    hyphen; the code and a hyphen come first.  The part made from the name
    holds no white space, and the records after the first play no role. *)
Theorem getLanguageBasename_strips_parenthetical
    toLowerCase langAbv first others name rest :
  lang first = name ++ lparen :: rest ->
  includes lparen name = false ->
  getLanguageBasename toLowerCase langAbv (first :: others)
  = langAbv ++ lit "-" ++ hyphenateRuns false (toLowerCase (trim name))
  /\ noSpace (hyphenateRuns false (toLowerCase (trim name))) = true.
Proof.
  intros Hlang Hname.
  rewrite <- (proj1 (replaceSpaceRuns_hyphenateRuns (toLowerCase (trim name)))).
  split; [|now apply replaceSpaceRuns_noSpace].
  unfold getLanguageBasename. cbv zeta. rewrite Hlang.
  assert (Hor : orElse (name ++ lparen :: rest) langAbv = name ++ lparen :: rest)
    by (destruct name; reflexivity).
  rewrite Hor, split_app_sep by exact Hname. reflexivity.
Qed.

(** A name with a run of three white-space characters before its
    parenthesis. *)
Lemma getLanguageBasename_scottish_gaelic :
  getLanguageBasename (List.map asciiLower) (lit "gd")
    [MkColorInfo (lit "Scottish " ++ [9%N; 32%N] ++ lit "Gaelic (Alba)")
       (lit "gd") [] [] [] [] [] [] []]
  = lit "gd-scottish-gaelic"
  /\ noSpace (lit "scottish-gaelic") = true.
Proof.
  apply (getLanguageBasename_strips_parenthetical (List.map asciiLower)
           (lit "gd")
           (MkColorInfo (lit "Scottish " ++ [9%N; 32%N] ++ lit "Gaelic (Alba)")
              (lit "gd") [] [] [] [] [] [] [])
           [] (lit "Scottish " ++ [9%N; 32%N] ++ lit "Gaelic ") (lit "Alba)")).
  - reflexivity.
  - reflexivity.
Defined.

(** Persian (Farsi) gives [fa-persian]; a name that begins with its
    parenthesis leaves the code and the hyphen. *)
Example getLanguageBasename_examples :
  getLanguageBasename (List.map asciiLower) (lit "fa")
    [MkColorInfo (lit "Persian (Farsi)") (lit "fa") [] [] [] [] [] [] []]
  = lit "fa-persian"
  /\ getLanguageBasename (List.map asciiLower) (lit "xx")
       [MkColorInfo (lit "(none)") (lit "xx") [] [] [] [] [] [] []]
     = lit "xx-".
Proof. split; vm_compute; reflexivity. Qed.

Lemma flat_map_map {A B C} (f : B -> list C) (g : A -> B) l :
  flat_map f (List.map g l) = flat_map (fun x => f (g x)) l.
Proof.
  induction l as [|x l IH]; [reflexivity|]. cbn [List.map flat_map].
  now rewrite IH.
Qed.

(** X16.  What [main] writes from a text whose header line names the nine
    fields: for each distinct language key, in the order in which the keys
    first appear in the rows, a CSV, a JSON and an SVG file of one base
    name, made from exactly the records of that key in the order of the
    rows. *)
Theorem mainWrites_per_language toLowerCase csv :
  let headers := headerNames (hd [] (split linefeed (trim csv))) in
  let colors := List.map (recordOf headers) (tl (split linefeed (trim csv))) in
  (forall field, In field colorInfoFields -> In field headers) ->
  mainWrites toLowerCase csv
  = Some (flat_map
            (fun key =>
               let group := filter (keyIs key) colors in
               let basename := getLanguageBasename toLowerCase key group in
               [ Write_ DATA_DIR (basename ++ lit ".csv") (generateCSV group);
                 Write_ JSON_DIR (basename ++ lit ".json") (generateJSON group);
                 Write_ SVG_DIR (basename ++ lit ".svg") (generateSVG group key) ])
            (firstSeen (List.map languageKey colors))).
Proof.
  cbv zeta. intros Hh. unfold mainWrites.
  rewrite (parseCSV_rows_are_records csv Hh). cbn [bind]. f_equal.
  unfold groupByLanguage.
  rewrite (fold_groupStep_groups _ []). cbn [app].
  rewrite flat_map_map. reflexivity.
Qed.

(** The scenario of two languages in three rows. *)
Lemma mainWrites_per_language_example :
  option_map (List.map (fun w => (dir w, fileName w)))
    (mainWrites (List.map asciiLower)
       (upstreamHeader ++ [linefeed] ++ lit "English,en,red,,," ++ [linefeed]
        ++ lit "French,fr,rouge" ++ [linefeed] ++ lit "English,en,blue,,,"))
  = Some [(DATA_DIR, lit "en-english.csv"); (JSON_DIR, lit "en-english.json");
          (SVG_DIR, lit "en-english.svg"); (DATA_DIR, lit "fr-french.csv");
          (JSON_DIR, lit "fr-french.json"); (SVG_DIR, lit "fr-french.svg")].
Proof.
  rewrite (mainWrites_per_language (List.map asciiLower)
             (upstreamHeader ++ [linefeed] ++ lit "English,en,red,,," ++ [linefeed]
              ++ lit "French,fr,rouge" ++ [linefeed] ++ lit "English,en,blue,,,")).
  - vm_compute. reflexivity.
  - intros field Hf. cbn [colorInfoFields In] in Hf.
    repeat destruct Hf as [<-|Hf]; try (vm_compute; tauto).
Defined.

(** X17.  A text without a line feed once trimmed (the empty text, a
    header line alone) makes [main] write no file. *)
Theorem mainWrites_header_only toLowerCase csv :
  includes linefeed (trim csv) = false ->
  mainWrites toLowerCase csv = Some [].
Proof.
  intros H. unfold mainWrites, parseCSV.
  rewrite (split_no_sep _ _ H). reflexivity.
Qed.

(** The upstream header alone, with a line end. *)
Lemma mainWrites_header_only_example :
  mainWrites (List.map asciiLower) (upstreamHeader ++ [13%N; linefeed]) = Some [].
Proof.
  apply (mainWrites_header_only (List.map asciiLower)
           (upstreamHeader ++ [13%N; linefeed])).
  vm_compute. reflexivity.
Defined.

(** ** The reader on the text of the CSV emitter *)

Lemma generateCSV_split colors :
  (forall color, In color colors -> includes linefeed (entryName color) = false) ->
  split linefeed (generateCSV colors) = lit "name,hex" :: List.map csvLine colors.
Proof.
  intros Hnames. unfold generateCSV. rewrite csvLines_map.
  apply split_join; [discriminate|].
  constructor; [reflexivity|]. apply Forall_forall. intros l Hl.
  apply in_map_iff in Hl as (color & <- & Hin).
  apply csvLine_no_linefeed. now apply Hnames.
Qed.

Lemma stops_rev_app pre last :
  last <> [] -> noSpace last = true -> stops isWhiteSpace (rev (pre ++ last)).
Proof.
  intros Hne Hns. rewrite rev_app_distr.
  destruct (noSpace_isTrimmed last Hns) as [_ H].
  destruct (rev last) as [|c t] eqn:E; [|exact H].
  apply (f_equal (@rev N)) in E. rewrite rev_involutive in E. now subst.
Qed.

Lemma generateCSV_isTrimmed colors : isTrimmed (generateCSV colors).
Proof.
  unfold generateCSV. rewrite csvLines_map. split.
  - destruct colors; exact (eq_refl false).
  - destruct colors as [|c0 cs0]; [exact (eq_refl false)|].
    destruct (@exists_last _ (c0 :: cs0) ltac:(discriminate)) as (cs & c & ->).
    rewrite map_app. cbn [List.map]. unfold csvLine at 2.
    change (lit "name,hex" :: List.map csvLine cs
            ++ [escapeName (entryName c) ++ [comma] ++ rgbToHex (avgColorRGBCode c)])
      with ((lit "name,hex" :: List.map csvLine cs)
            ++ [escapeName (entryName c) ++ [comma] ++ rgbToHex (avgColorRGBCode c)]).
    rewrite (app_assoc (escapeName (entryName c)) [comma]), <- join_snoc_app.
    apply stops_rev_app; [|apply rgbToHex_noSpace].
    intros E. pose proof (rgbToHex_length (avgColorRGBCode c)) as L.
    rewrite E in L. discriminate.
Qed.

(** X18.  The reader on the text of the emitter: when no name holds a
    line feed, [parseCSV] on the text of [generateCSV] returns one object
    per record, in order, with the fields [name] (the name without its
    double quotes, trimmed) and [hex]. *)
Theorem parseCSV_of_generateCSV colors :
  (forall color, In color colors -> includes linefeed (entryName color) = false) ->
  parseCSV (generateCSV colors)
  = List.map (fun color =>
                [(lit "name", trim (withoutQuotes (entryName color)));
                 (lit "hex", rgbToHex (avgColorRGBCode color))])
      colors.
Proof.
  intros Hnames. unfold parseCSV.
  rewrite (trim_of_trimmed _ (generateCSV_isTrimmed colors)).
  rewrite (generateCSV_split colors Hnames). cbn [hd tl].
  rewrite map_map. apply map_ext. intros color.
  unfold parseRow. rewrite rowValues_csvLine. reflexivity.
Qed.

(** Two records, one with a quoted word and a comma in its name. *)
Lemma parseCSV_of_generateCSV_example :
  parseCSV
    (generateCSV
       [MkColorInfo (lit "English") (lit "en") []
          (lit "sea, " ++ q "deep" ++ lit " blue") (lit "rgb(0, 0, 128)")
          [] [] [] [];
        enRecord "red"])
  = [[(lit "name", lit "sea, deep blue"); (lit "hex", lit "#000080")];
     [(lit "name", lit "red"); (lit "hex", lit "#010203")]].
Proof.
  apply (parseCSV_of_generateCSV
           [MkColorInfo (lit "English") (lit "en") []
              (lit "sea, " ++ q "deep" ++ lit " blue") (lit "rgb(0, 0, 128)")
              [] [] [] [];
            enRecord "red"]).
  intros color [<-|[<-|[]]]; reflexivity.
Defined.
